(** * gore/eval: chunking, partitioning, import inference and the
      compile-and-repair loop of [Eval]

    A shallow embedding of [eval.go] (package [eval] of gore) and the
    properties of it that the specification states.

    Conventions of the embedding.
    - A Go [string] is a list of runes ([list N], one code point per
      element).  The scanner reads the input rune by rune, and every
      byte-level operation of the code ([l[0]], [l[len(l)-1]],
      [code[len(code)-1]], [pkg[:len(pkg)-1]], [strings.HasPrefix]) compares
      against ASCII characters only, for which bytes and runes coincide on
      well-formed UTF-8.
    - A Go [int] is a [Z] without wrap-around: every counter of the program
      is bounded by the length of the input.
    - A [panic] is an explicit outcome; [Eval] is the only place that
      recovers from it.
    - A [for { ... }] loop is a [Fixpoint] on a fuel argument; the function
      that owns the loop supplies one more than the number of runes still
      unread, and the theorems below show that this never runs out. *)

From Stdlib Require Import ZArith NArith List Ascii String DecimalString Lia.
From stdpp Require Import base option list list_numbers gmap.

Local Open Scope Z_scope.

(** ** Strings and characters *)

(** The runes of a literal. *)
Definition str (s : string) : list N :=
  map N_of_ascii (list_ascii_of_string s).

Definition NUL : N := 0%N.
Definition TAB : N := 9%N.
Definition NL : N := 10%N.
Definition SPACE : N := 32%N.
Definition DQUOTE : N := 34%N.
Definition SQUOTE : N := 39%N.
Definition LPAREN : N := 40%N.
Definition RPAREN : N := 41%N.
Definition STAR : N := 42%N.
Definition DOT : N := 46%N.
Definition SLASH : N := 47%N.
Definition COLON : N := 58%N.
Definition EQUALS : N := 61%N.
Definition BACKSLASH : N := 92%N.
Definition UNDERSCORE : N := 95%N.
Definition BACKTICK : N := 96%N.
Definition LBRACE : N := 123%N.
Definition RBRACE : N := 125%N.

(** [fmt.Sprintf("%d", n)] *)
Definition fmtInt (n : Z) : list N :=
  str (NilZero.string_of_int (Z.to_int n)).

(** [string(n)] on an integer: the UTF-8 text of the code point [n], which
    as a list of runes is that single rune; U+FFFD outside the valid range. *)
Definition runeToString (n : Z) : list N :=
  if (0 <=? n) && (n <=? 1114111) && negb ((55296 <=? n) && (n <=? 57343))
  then [Z.to_N n] else [65533%N].

(** [unicode.IsSpace] *)
Definition isSpace (c : N) : bool :=
  ((9 <=? c) && (c <=? 13) || (c =? 32) || (c =? 133) || (c =? 160)
   || (c =? 5760) || (8192 <=? c) && (c <=? 8202) || (c =? 8232)
   || (c =? 8233) || (c =? 8239) || (c =? 8287) || (c =? 12288))%N.

(** [strings.TrimLeft(s, cutset)] *)
Fixpoint TrimLeft (s cutset : list N) : list N :=
  match s with
  | c :: s' => if bool_decide (c ∈ cutset) then TrimLeft s' cutset else s
  | [] => []
  end.

Fixpoint trimLeftSpace (s : list N) : list N :=
  match s with
  | c :: s' => if isSpace c then trimLeftSpace s' else s
  | [] => []
  end.

(** [strings.TrimSpace] *)
Definition TrimSpace (s : list N) : list N :=
  rev (trimLeftSpace (rev (trimLeftSpace s))).

(** [strings.HasPrefix] *)
Fixpoint HasPrefix (s prefix : list N) : bool :=
  match prefix, s with
  | [], _ => true
  | p :: prefix', c :: s' => (c =? p)%N && HasPrefix s' prefix'
  | _ :: _, [] => false
  end.

(** ** Errors and panics *)

(** The only [error] value the scanner produces is [io.EOF]; [nil] is
    [None]. *)
Inductive error := EOF.

Definition isEOF (e : option error) : bool :=
  match e with Some EOF => true | None => false end.

Definition notNil (e : option error) : bool :=
  match e with Some _ => true | None => false end.

(** The values the code panics with. *)
Inductive panicValue :=
| NewlineInString (at_ : Z)        (* readString *)
| BracketNotClosed (openAt count : Z)  (* partition *)
| ErrorValue (e : error).          (* partition: panic(err) *)

Inductive outcome (A : Type) :=
| Returns (a : A)
| Panics (p : panicValue)
| OutOfFuel.
Arguments Returns {A} a.
Arguments Panics {A} p.
Arguments OutOfFuel {A}.

(** ** The scanner *)

(** Modelled from the spec: the [Scanner] type ([NewScanner], [Mark],
    [ReadRune], [UnreadRune], [Reset], [Slice], [Pos]) is declared in a file
    of the package that is not among the sources; the specification only
    calls it "a mutable read cursor" over the full input text.  It is
    modelled as the input and the offset of the read head.  A mark is the
    number of runes still unread when it is taken: this is what the caller
    in [readText] relies on, where [Reset(slashMark + 1)] "is to unread the
    original slash as well", the slash having been read just before
    [slashMark] was taken.  [Slice(mark)] is the input from the mark to the
    read head, as the comment in [nextChunk] says. *)
Record Scanner := { input : list N; pos : nat }.

Definition NewScanner (code : list N) : Scanner :=
  {| input := code; pos := 0 |}.

(** Number of runes still unread. *)
Definition Len (s : Scanner) : nat := (length (input s) - pos s)%nat.

Definition Mark (s : Scanner) : nat := Len s.

Definition ReadRune (s : Scanner) : N * option error * Scanner :=
  match input s !! pos s with
  | Some ch => (ch, None, {| input := input s; pos := S (pos s) |})
  | None => (NUL, Some EOF, s)
  end.

Definition UnreadRune (s : Scanner) : Scanner :=
  {| input := input s; pos := Nat.pred (pos s) |}.

Definition Reset (s : Scanner) (mark : nat) : Scanner :=
  {| input := input s; pos := (length (input s) - mark)%nat |}.

Definition Slice (s : Scanner) (mark : nat) : list N :=
  let start := (length (input s) - mark)%nat in
  take (pos s - start) (drop start (input s)).

Definition Pos (s : Scanner) : Z := Z.of_nat (pos s).

(** ** Chunks *)

Definition KSTRING : Z := 1.
Definition KCOMMENT : Z := 2.
Definition KTEXT : Z := 3.

Record Chunk := {
  kind : Z;        (* One of the chunk kinds above *)
  text : list N;   (* slice of input string *)
  numNL : Z        (* number of new lines embedded in text *)
}.

(** The zero value of [Chunk]. *)
Definition zeroChunk : Chunk := {| kind := 0; text := []; numNL := 0 |}.

(** A chunk reader hands back the chunk, the error, and the scanner it
    advanced. *)
Definition mkChunk (mark : nat) (scanner : Scanner) (kind : Z) (numLines : Z)
    (err : option error) : Chunk * option error * Scanner :=
  let text := Slice scanner mark in
  let err := if (0 <? length text)%nat && isEOF err then None else err in
  ({| kind := kind; text := text; numNL := numLines |}, err, scanner).

Fixpoint readSingleLineComment_loop (fuel : nat) (mark : nat) (scanner : Scanner)
    : outcome (Chunk * option error * Scanner) :=
  match fuel with
  | O => OutOfFuel
  | S fuel =>
      let '(ch, err, scanner) := ReadRune scanner in
      if notNil err || (ch =? NL)%N
      then Returns (mkChunk mark scanner KCOMMENT 1 err)
      else readSingleLineComment_loop fuel mark scanner
  end.

Definition readSingleLineComment (mark : nat) (scanner : Scanner) :=
  readSingleLineComment_loop (S (Len scanner)) mark scanner.

Fixpoint readMultilineComment_loop (fuel : nat) (numLines : Z) (mark : nat)
    (scanner : Scanner) : outcome (Chunk * option error * Scanner) :=
  match fuel with
  | O => OutOfFuel
  | S fuel =>
      let '(ch, err, scanner) := ReadRune scanner in
      if notNil err then Returns (mkChunk mark scanner KCOMMENT numLines err)
      else if (ch =? STAR)%N then
        let '(ch, err, scanner) := ReadRune scanner in
        if notNil err || (ch =? SLASH)%N
        then Returns (mkChunk mark scanner KCOMMENT numLines err)
        else readMultilineComment_loop fuel numLines mark scanner
      else if (ch =? NL)%N then
        readMultilineComment_loop fuel (numLines + 1) mark scanner
      else readMultilineComment_loop fuel numLines mark scanner
  end.

Definition readMultilineComment (mark : nat) (scanner : Scanner) :=
  readMultilineComment_loop (S (Len scanner)) 0 mark scanner.

Fixpoint readString_loop (fuel : nat) (mark : nat) (scanner : Scanner) (endCh : N)
    : outcome (Chunk * option error * Scanner) :=
  match fuel with
  | O => OutOfFuel
  | S fuel =>
      let '(ch, err, scanner) := ReadRune scanner in
      if notNil err then Returns (mkChunk mark scanner KSTRING 0 err)
      else if (ch =? endCh)%N then Returns (mkChunk mark scanner KSTRING 0 None)
      else if (ch =? BACKSLASH)%N then
        let '(_, _, scanner) := ReadRune scanner in  (* read past next char *)
        readString_loop fuel mark scanner endCh
      else if (ch =? NL)%N then Panics (NewlineInString (Pos scanner))
      else readString_loop fuel mark scanner endCh
  end.

Definition readString (mark : nat) (scanner : Scanner) (endCh : N) :=
  readString_loop (S (Len scanner)) mark scanner endCh.

Fixpoint readMultilineString_loop (fuel : nat) (numLines : Z) (mark : nat)
    (scanner : Scanner) : outcome (Chunk * option error * Scanner) :=
  match fuel with
  | O => OutOfFuel
  | S fuel =>
      let '(ch, err, scanner) := ReadRune scanner in
      if notNil err then Returns (mkChunk mark scanner KSTRING 1 err)
      else if (ch =? BACKTICK)%N
      then Returns (mkChunk mark scanner KSTRING numLines None)
      else if (ch =? NL)%N then
        readMultilineString_loop fuel (numLines + 1) mark scanner
      else readMultilineString_loop fuel numLines mark scanner
  end.

Definition readMultilineString (mark : nat) (scanner : Scanner) :=
  readMultilineString_loop (S (Len scanner)) 0 mark scanner.

Fixpoint readText_loop (fuel : nat) (mark : nat) (scanner : Scanner)
    : outcome (Chunk * option error * Scanner) :=
  match fuel with
  | O => OutOfFuel
  | S fuel =>
      let '(ch, err, scanner) := ReadRune scanner in
      if notNil err then Returns (mkChunk mark scanner KTEXT 0 err)
      else if (ch =? SLASH)%N then
        let slashMark := Mark scanner in
        let '(ch, err, scanner) := ReadRune scanner in
        if (ch =? STAR)%N || (ch =? SLASH)%N then
          (* it is a comment *)
          let scanner := Reset scanner (slashMark + 1) in
          Returns (mkChunk mark scanner KTEXT 0 None)
        else readText_loop fuel mark scanner
      else if (ch =? BACKTICK)%N || (ch =? DQUOTE)%N || (ch =? SQUOTE)%N then
        let scanner := UnreadRune scanner in
        Returns (mkChunk mark scanner KTEXT 0 None)
      else if (ch =? NL)%N then Returns (mkChunk mark scanner KTEXT 1 None)
      else readText_loop fuel mark scanner
  end.

Definition readText (mark : nat) (scanner : Scanner) :=
  readText_loop (S (Len scanner)) mark scanner.

Definition nextChunk (scanner : Scanner)
    : outcome (Chunk * option error * Scanner) :=
  let mark := Mark scanner in
  let '(ch, err, scanner) := ReadRune scanner in
  if notNil err then Returns (zeroChunk, err, scanner)
  else if (ch =? SLASH)%N then
    let '(ch, err, scanner) := ReadRune scanner in
    if notNil err then Returns (mkChunk mark scanner KCOMMENT 0 err)
    else if (ch =? SLASH)%N then readSingleLineComment mark scanner
    else if (ch =? STAR)%N then readMultilineComment mark scanner
    else readText mark scanner
  else if (ch =? DQUOTE)%N || (ch =? SQUOTE)%N then readString mark scanner ch
  else if (ch =? BACKTICK)%N then readMultilineString mark scanner
  else if (ch =? NL)%N then Returns (mkChunk mark scanner KTEXT 1 err)
  else readText mark scanner.


(** The loop at the head of [partition]: read chunks until [io.EOF] and
    hand each one to [add].  The loop panics on any other error, of which
    the scanner has none.  The state reached so far is handed back together
    with the way the loop ended. *)
Fixpoint chunk_loop {St : Type} (add : St -> Chunk -> St) (fuel : nat)
    (scanner : Scanner) (state : St) : St * outcome unit :=
  match fuel with
  | O => (state, OutOfFuel)
  | S fuel =>
      match nextChunk scanner with
      | Returns (chunk, err, scanner) =>
          match err with
          | Some EOF => (state, Returns tt)
          | None => chunk_loop add fuel scanner (add state chunk)
          end
      | Panics p => (state, Panics p)
      | OutOfFuel => (state, OutOfFuel)
      end
  end.

Definition snoc (acc : list Chunk) (chunk : Chunk) : list Chunk :=
  acc ++ [chunk].

(** The chunks that repeated calls of [nextChunk] on [code] emit, in order,
    and how the sequence ends. *)
Definition chunksOf (code : list N) : list Chunk * outcome unit :=
  chunk_loop snoc (S (length code)) (NewScanner code) [].

(** ** Regular expressions of the program

    Go's [regexp] finds the leftmost match and, from one start offset,
    prefers the greedy choice.  In each pattern below a repetition is
    followed by a character outside the repeated class, so giving back
    characters never yields a match and the greedy choice is the only one.
    [FindAll] and [ReplaceAll] resume the search where the last match
    ended; the [skip] argument counts the runes of the current match still
    to step over. *)

Fixpoint takeWhile (p : N -> bool) (s : list N) : list N :=
  match s with
  | c :: s' => if p c then c :: takeWhile p s' else []
  | [] => []
  end.

Fixpoint dropWhile (p : N -> bool) (s : list N) : list N :=
  match s with
  | c :: s' => if p c then dropWhile p s' else s
  | [] => []
  end.

(** [\w] *)
Definition isWord (c : N) : bool :=
  ((48 <=? c) && (c <=? 57) || (65 <=? c) && (c <=? 90)
   || (97 <=? c) && (c <=? 122) || (c =? 95))%N.

(** [[a-z]] *)
Definition isLower (c : N) : bool := ((97 <=? c) && (c <=? 122))%N.

(** [\s] *)
Definition isReSpace (c : N) : bool :=
  ((c =? 9) || (c =? 10) || (c =? 12) || (c =? 13) || (c =? 32))%N.

(** [^] under [(?m)]: at the start of the text or after a newline. *)
Definition atLineStart (prev : option N) : bool :=
  match prev with None => true | Some c => (c =? NL)%N end.

(** [\b] before a word character. *)
Definition atWordStart (prev : option N) : bool :=
  match prev with None => true | Some c => negb (isWord c) end.

(** A match of [\b[a-z]\w+\.] that starts at the head of [s]. *)
Definition pkgPat_at (prev : option N) (s : list N) : option (list N) :=
  match s with
  | c :: s' =>
      if atWordStart prev && isLower c then
        let w := takeWhile isWord s' in
        match w, dropWhile isWord s' with
        | _ :: _, d :: _ => if (d =? DOT)%N then Some (c :: w ++ [DOT]) else None
        | _, _ => None
        end
      else None
  | [] => None
  end.

Fixpoint pkgPat_from (skip : nat) (prev : option N) (s : list N)
    : list (list N) :=
  match s with
  | [] => []
  | c :: s' =>
      match skip with
      | S k => pkgPat_from k (Some c) s'
      | O =>
          match pkgPat_at prev s with
          | Some m => m :: pkgPat_from (length m - 1) (Some c) s'
          | None => pkgPat_from 0 (Some c) s'
          end
      end
  end.

(** [pkgPat.FindAllString(code, -1)] for
    [pkgPat = regexp.MustCompile(`(?m)\b[a-z]\w+\.`)]. *)
Definition pkgPat_FindAllString (code : list N) : list (list N) :=
  pkgPat_from 0 None code.

(** A match of the alias pattern of [expandAliases] that starts at the
    head of [s]: at a line start, white space, then [letter], then one or
    more blanks, then group 1, which is one character other than white
    space, [=], [:] and the opening parenthesis followed by the rest of the
    line.  The result is the text of group 1 and the length of the match. *)
Definition alias_at (letter : N) (s : list N) : option (list N * nat) :=
  let ws := takeWhile isReSpace s in
  match dropWhile isReSpace s with
  | c :: s1 =>
      if (c =? letter)%N then
        let sp := takeWhile (N.eqb SPACE) s1 in
        match sp, dropWhile (N.eqb SPACE) s1 with
        | _ :: _, d :: s2 =>
            if isReSpace d || (d =? EQUALS)%N || (d =? COLON)%N || (d =? LPAREN)%N
            then None
            else
              let rest := takeWhile (fun x => negb (x =? NL)%N) s2 in
              Some (d :: rest,
                    (length ws + 1 + length sp + 1 + length rest)%nat)
        | _, _ => None
        end
      else None
  | [] => None
  end.

Fixpoint alias_replace (letter : N) (skip : nat) (prev : option N)
    (s : list N) : list N :=
  match s with
  | [] => []
  | c :: s' =>
      match skip with
      | S k => alias_replace letter k (Some c) s'
      | O =>
          match (if atLineStart prev then alias_at letter s else None) with
          | Some (g, n) =>
              [UNDERSCORE; UNDERSCORE; letter; LPAREN] ++ g ++ [RPAREN]
                ++ alias_replace letter (n - 1) (Some c) s'
          | None => c :: alias_replace letter 0 (Some c) s'
          end
      end
  end.

Definition expandAliases (code : list N) : list N :=
  let code := alias_replace 112 0 None code in   (* p *)
  alias_replace 116 0 None code.                 (* t *)

(** [regexp.MatchString(`^\s*package `, code)] *)
Definition hasPackageDecl (code : list N) : bool :=
  HasPrefix (dropWhile isReSpace code) (str "package ").

(** A match of the pattern of [repairImports] at the head of [s]: a word
    (group 1) followed by " redeclared as imported package name", or else
    "imported and not used: " followed by a word (group 2) in double
    quotes.  The result is the two groups and the length of the match. *)
Definition repair_at (s : list N) : option (list N * list N * nat) :=
  let lit1 := str " redeclared as imported package name" in
  let lit2 := str "imported and not used: " ++ [DQUOTE] in
  let w := takeWhile isWord s in
  if (0 <? length w)%nat && HasPrefix (dropWhile isWord s) lit1
  then Some (w, [], (length w + length lit1)%nat)
  else if HasPrefix s lit2 then
    let s' := drop (length lit2) s in
    let w := takeWhile isWord s' in
    match w, dropWhile isWord s' with
    | _ :: _, d :: _ =>
        if (d =? DQUOTE)%N then Some ([], w, (length lit2 + length w + 1)%nat)
        else None
    | _, _ => None
    end
  else None.

(** [r.FindAllStringSubmatch(err, -1)], each match as its groups 1 and 2. *)
Fixpoint repair_matches (skip : nat) (s : list N) : list (list N * list N) :=
  match s with
  | [] => []
  | _ :: s' =>
      match skip with
      | S k => repair_matches k s'
      | O =>
          match repair_at s with
          | Some (g1, g2, n) => (g1, g2) :: repair_matches (n - 1) s'
          | None => repair_matches 0 s'
          end
      end
  end.

(** ** Import inference *)

Definition pkgs : list (list N) := map str [
  "hash/adler32"; "crypto/aes"; "encoding/ascii85"; "encoding/asn1";
  "go/ast"; "sync/atomic"; "encoding/base32"; "encoding/base64";
  "math/big"; "encoding/binary"; "bufio"; "go/build";
  "bytes"; "compress/bzip2"; "net/http/cgi"; "runtime/cgo";
  "crypto/cipher"; "math/cmplx"; "image/color"; "hash/crc32";
  "hash/crc64"; "crypto"; "encoding/csv"; "runtime/debug";
  "crypto/des"; "go/doc"; "image/draw"; "database/sql/driver";
  "crypto/dsa"; "debug/dwarf"; "crypto/ecdsa"; "debug/elf";
  "crypto/elliptic"; "errors"; "os/exec"; "expvar";
  "net/http/fcgi"; "path/filepath"; "flag"; "compress/flate";
  "fmt"; "hash/fnv"; "image/gif"; "encoding/gob";
  "debug/gosym"; "compress/gzip"; "hash"; "container/heap";
  "encoding/hex"; "crypto/hmac"; "html"; "net/http";
  "net/http/httputil"; "image"; "io"; "io/ioutil";
  "image/jpeg"; "encoding/json"; "net/rpc/jsonrpc"; "container/list";
  "log"; "compress/lzw"; "debug/macho"; "net/mail";
  "math"; "crypto/md5"; "mime"; "mime/multipart";
  "net"; "os"; "text/template/parse"; "go/parser";
  "path"; "debug/pe"; "encoding/pem"; "crypto/x509/pkix";
  "image/png"; "net/http/pprof"; "go/printer";
  "math/rand"; "crypto/rc4"; "reflect";
  "regexp"; "container/ring"; "net/rpc"; "crypto/rsa";
  "runtime"; "text/scanner"; "crypto/sha1";
  "crypto/sha256"; "crypto/sha512"; "os/signal"; "net/smtp";
  "sort"; "database/sql"; "strconv"; "strings";
  "crypto/subtle"; "index/suffixarray"; "sync"; "regexp/syntax";
  "syscall"; "log/syslog"; "text/tabwriter"; "archive/tar";
  "text/template"; "net/textproto"; "time";
  "crypto/tls"; "go/token"; "unicode"; "unsafe";
  "net/url"; "os/user"; "unicode/utf16"; "unicode/utf8";
  "crypto/x509"; "encoding/xml"; "archive/zip"; "compress/zlib"
]%string.

(** [pkg[strings.LastIndex(pkg, "/")+1:]]: what follows the last slash, the
    whole of [pkg] when it has none. *)
Fixpoint afterLastSlash (pkg : list N) : list N :=
  match pkg with
  | [] => []
  | c :: pkg' =>
      if bool_decide (SLASH ∈ pkg') then afterLastSlash pkg'
      else if (c =? SLASH)%N then pkg' else pkg
  end.

(** The table that [init] fills. *)
Definition builtinPkgs : gmap (list N) (list N) :=
  foldl (fun m pkg => <[afterLastSlash pkg := pkg]> m) ∅ pkgs.

Definition inferPackages (code : list N) (pkgsToImport : gmap (list N) bool)
    : gmap (list N) bool :=
  foldl (fun pkgsToImport pkg =>
           let pkg := take (length pkg - 1) pkg in   (* remove trailing '.' *)
           match builtinPkgs !! pkg with
           | Some importPkg => <[importPkg := true]> pkgsToImport
           | None => pkgsToImport
           end)
        pkgsToImport (pkgPat_FindAllString code).

(** ** Partitioning *)

Record State := {
  lineNum : Z;                          (* the current line number, while accumulating chunks *)
  pkgsToImport : gmap (list N) bool;    (* inferred set of package names *)
  isTopLevel : bool;
  brackOpenAt : Z;                      (* lineNumber where the last bracket was opened *)
  brackCount : Z;                       (* parens and curlies that have not been closed *)
  closingCh : N;                        (* One of ')', '}', or ' ' as a dummy value *)
  chunks : gmap Z (list Chunk)          (* for each line in input code, an array of chunks *)
}.

Definition set_lineNum (s : State) (v : Z) : State :=
  {| lineNum := v; pkgsToImport := pkgsToImport s; isTopLevel := isTopLevel s;
     brackOpenAt := brackOpenAt s; brackCount := brackCount s;
     closingCh := closingCh s; chunks := chunks s |}.
Definition set_pkgsToImport (s : State) (v : gmap (list N) bool) : State :=
  {| lineNum := lineNum s; pkgsToImport := v; isTopLevel := isTopLevel s;
     brackOpenAt := brackOpenAt s; brackCount := brackCount s;
     closingCh := closingCh s; chunks := chunks s |}.
Definition set_isTopLevel (s : State) (v : bool) : State :=
  {| lineNum := lineNum s; pkgsToImport := pkgsToImport s; isTopLevel := v;
     brackOpenAt := brackOpenAt s; brackCount := brackCount s;
     closingCh := closingCh s; chunks := chunks s |}.
Definition set_brackOpenAt (s : State) (v : Z) : State :=
  {| lineNum := lineNum s; pkgsToImport := pkgsToImport s; isTopLevel := isTopLevel s;
     brackOpenAt := v; brackCount := brackCount s;
     closingCh := closingCh s; chunks := chunks s |}.
Definition set_brackCount (s : State) (v : Z) : State :=
  {| lineNum := lineNum s; pkgsToImport := pkgsToImport s; isTopLevel := isTopLevel s;
     brackOpenAt := brackOpenAt s; brackCount := v;
     closingCh := closingCh s; chunks := chunks s |}.
Definition set_closingCh (s : State) (v : N) : State :=
  {| lineNum := lineNum s; pkgsToImport := pkgsToImport s; isTopLevel := isTopLevel s;
     brackOpenAt := brackOpenAt s; brackCount := brackCount s;
     closingCh := v; chunks := chunks s |}.
Definition set_chunks (s : State) (v : gmap Z (list Chunk)) : State :=
  {| lineNum := lineNum s; pkgsToImport := pkgsToImport s; isTopLevel := isTopLevel s;
     brackOpenAt := brackOpenAt s; brackCount := brackCount s;
     closingCh := closingCh s; chunks := v |}.

(** The state [partition] starts from. *)
Definition initState : State :=
  {| lineNum := 1; pkgsToImport := ∅; isTopLevel := false; brackOpenAt := 0;
     closingCh := SPACE; brackCount := 0; chunks := ∅ |}.

Definition addLine (lineNo : Z) (code : list N) (line : list N) : list N :=
  match last code with
  | Some c =>
      if (c =? NL)%N then code ++ str "//line :" ++ fmtInt lineNo ++ [NL] ++ line
      else code ++ line
  | None => code ++ str "//line :" ++ fmtInt lineNo ++ [NL] ++ line
  end.

(** add a chunk to the current line in state.chunks *)
Definition addChunk (state : State) (chunk : Chunk) : State :=
  let cs := default [] (chunks state !! lineNum state) in
  let state := set_chunks state (<[lineNum state := cs ++ [chunk]]> (chunks state)) in
  set_lineNum state (lineNum state + numNL chunk).

(** Concatenate chunk.text from TEXT chunks into a single string *)
Definition extractTxt (cs : list Chunk) : list N :=
  foldl (fun line chunk =>
           if kind chunk =? KTEXT then line ++ text chunk else line) [] cs.

(** The two cases of the [switch] of [processLine], which differ in the
    closing character only. *)
Definition openBracket (state : State) (closing : N) : State :=
  let state := set_closingCh state closing in
  let state := if brackCount state =? 0
               then set_brackOpenAt state (lineNum state) else state in
  set_brackCount state (brackCount state + 1).

(** The first loop of [processLine]: import inference over the TEXT chunks
    of the line. *)
Definition inferLine (cs : list Chunk) (state : State) : State :=
  foldl (fun state chunk =>
           if kind chunk =? KTEXT
           then set_pkgsToImport state
                  (inferPackages (text chunk) (pkgsToImport state))
           else state) state cs.

(** The first [if len(l) > 0] of [processLine], on the left-trimmed text:
    is there a '}' or ')' at beginning of line, modulo comments; if not, and
    no block is open, look for func/type/import decls. *)
Definition lineStart (l : list N) (state : State) : State :=
  match l with
  | l0 :: _ =>
      if (l0 =? closingCh state)%N then
        let state := set_brackCount state (brackCount state - 1) in
        if brackCount state =? 0
        then set_brackOpenAt (set_closingCh state SPACE) 0  (* reset *)
        else state
      else if brackCount state =? 0 then
        set_isTopLevel state
          (HasPrefix l (str "func ") || HasPrefix l (str "type ")
           || HasPrefix l (str "import "))
      else state
  | [] => state
  end.

(** The second [if len(l) > 0] of [processLine], on the text trimmed on
    both sides: is there a '{' or '(' at end of line modulo comments. *)
Definition lineEnd (l : list N) (state : State) : State :=
  match last l with
  | Some c =>
      if (c =? LBRACE)%N then openBracket state RBRACE
      else if (c =? LPAREN)%N then openBracket state RPAREN
      else state
  | None => state
  end.

Definition processLine (lineNo : Z) (state : State) : list N * State :=
  match chunks state !! lineNo with
  | None => ([], state)
  | Some cs =>
      let state := inferLine cs state in
      let l := TrimLeft (extractTxt cs) [SPACE; TAB] in
      let state := lineStart l state in
      let l := TrimSpace l in
      let state := lineEnd l state in
      (* Concat chunks' texts *)
      (foldl (fun retLine chunk => retLine ++ text chunk) [] cs, state)
  end.

(** The second loop of [partition]: one [processLine] per line number, the
    line going to [topLevel] or [nonTopLevel]. *)
Definition partition_line (acc : list N * list N * State) (lineNo : Z)
    : list N * list N * State :=
  let '(topLevel, nonTopLevel, state) := acc in
  let '(line, state) := processLine lineNo state in
  if isTopLevel state
  then (addLine lineNo topLevel line, nonTopLevel, state)
  else (topLevel, addLine lineNo nonTopLevel line, state).

Definition partition_lines (state : State) : list N * list N * State :=
  foldl partition_line ([], [], state) (seqZ 1 (lineNum state)).

Definition partition (code : list N)
    : outcome (list N * list N * gmap (list N) bool) :=
  match chunk_loop addChunk (S (length code)) (NewScanner code) initState with
  | (state, Returns _) =>
      let '(topLevel, nonTopLevel, state) := partition_lines state in
      if 0 <? brackCount state
      then Panics (BracketNotClosed (brackOpenAt state) (brackCount state))
      else Returns (topLevel, nonTopLevel, pkgsToImport state)
  | (_, Panics p) => Panics p
  | (_, OutOfFuel) => OutOfFuel
  end.

(** ** Assembling, running and repairing *)

Definition nl : list N := [NL].
Definition tab : list N := [TAB].
Definition dq : list N := [DQUOTE].
Definition bsl : list N := [BACKSLASH].

(** [buildMain].  Go ranges over the map in no fixed order; the import
    lines are taken in the order of [map_to_list]. *)
Definition buildMain (topLevel nonTopLevel : list N)
    (pkgsToImport : gmap (list N) bool) : list N :=
  let imports :=
    foldl (fun imports kv => imports ++ str "import " ++ dq ++ kv.1 ++ dq ++ nl)
          [] (map_to_list pkgsToImport) in
  nl ++ str "package main" ++ nl
  ++ imports ++ nl
  ++ topLevel ++ nl
  ++ str "func main() {" ++ nl
  ++ nonTopLevel ++ nl
  ++ str "}" ++ nl
  ++ nl
  ++ str "func __p(values ...interface{}){" ++ nl
  ++ tab ++ str "for _, v := range values {" ++ nl
  ++ str "             fmt.Printf(" ++ dq ++ str "%+v" ++ bsl ++ str "n" ++ dq
       ++ str ", v)" ++ nl
  ++ tab ++ str "}" ++ nl
  ++ str "}" ++ nl
  ++ str "func __t(values ...interface{}){" ++ nl
  ++ tab ++ str "for _, v := range values {" ++ nl
  ++ str "             fmt.Printf(" ++ dq ++ str "%T" ++ bsl ++ str "n" ++ dq
       ++ str ", v)" ++ nl
  ++ tab ++ str "}" ++ nl
  ++ str "}" ++ nl.

(** One match of the loop of [repairImports]: [pkg] keeps its value from
    the previous match when both groups are empty. *)
Definition repair_step (acc : bool * list N * gmap (list N) bool)
    (m : list N * list N) : bool * list N * gmap (list N) bool :=
  let '(dupsDetected, pkg, pkgsToImport) := acc in
  let pkg := match m.1, m.2 with
             | _ :: _, _ => m.1
             | [], _ :: _ => m.2
             | [], [] => pkg
             end in
  if default false (pkgsToImport !! pkg)
  then (true, pkg, delete pkg pkgsToImport)
  else (dupsDetected, pkg, pkgsToImport).

Definition repairImports (err : list N) (pkgsToImport : gmap (list N) bool)
    : bool * gmap (list N) bool :=
  let '(dupsDetected, _, pkgsToImport) :=
    foldl repair_step (false, [], pkgsToImport) (repair_matches 0 err) in
  (dupsDetected, pkgsToImport).

(** [fmt.Sprintf("%v", e)] of a recovered panic value. *)
Definition fmtPanic (e : panicValue) : list N :=
  match e with
  | NewlineInString at_ => str "Newline in string @ " ++ runeToString at_
  | BracketNotClosed openAt count =>
      fmtInt openAt ++ str ": Bracket or paren not closed. " ++ fmtInt count
  | ErrorValue EOF => str "EOF"
  end.

(** What a call of [Eval] or [buildAndExec] leaves behind: the two strings
    it returns, the sources it handed to [run], in order, and the world
    after it. *)
Record Result (World : Type) := {
  out : list N;
  err : list N;
  compiled : list (list N);
  world : World
}.
Arguments out {World} r.
Arguments err {World} r.
Arguments compiled {World} r.
Arguments world {World} r.

Section Toolchain.

(** [run] writes the source to a temporary file and has the Go toolchain
    compile and execute it; what it returns is decided outside the
    program.  It is a parameter: a function of the source and of the
    state of the world that returns [(output, err)] and the next world. *)
Variable World : Type.
Variable run : list N -> World -> list N * list N * World.

Definition buildAndExec (topLevel nonTopLevel : list N)
    (pkgsToImport : gmap (list N) bool) (w : World) : Result World :=
  let pkgsToImport := <[str "fmt" := true]> pkgsToImport in
  let src := buildMain topLevel nonTopLevel pkgsToImport in
  let '(out1, err1, w) := run src w in
  match err1 with
  | _ :: _ =>
      let '(dupsDetected, pkgsToImport) := repairImports err1 pkgsToImport in
      if dupsDetected then
        let src2 := buildMain topLevel nonTopLevel pkgsToImport in
        let '(out2, err2, w) := run src2 w in
        {| out := out2; err := err2; compiled := [src; src2]; world := w |}
      else {| out := out1; err := err1; compiled := [src]; world := w |}
  | [] => {| out := out1; err := err1; compiled := [src]; world := w |}
  end.

Definition Eval (code : list N) (w : World) : outcome (Result World) :=
  (* No additional wrapping if it has a package declaration already *)
  if hasPackageDecl code then
    let '(out1, err1, w) := run code w in
    Returns {| out := out1; err := err1; compiled := [code]; world := w |}
  else
    let code := expandAliases code in
    match partition code with
    | Returns (topLevel, nonTopLevel, pkgsToImport) =>
        Returns (buildAndExec topLevel nonTopLevel pkgsToImport w)
    | Panics e =>   (* error recovery *)
        Returns {| out := []; err := str "1:" ++ fmtPanic e;
                   compiled := []; world := w |}
    | OutOfFuel => OutOfFuel
    end.

End Toolchain.

(** The number of newline characters in a text. *)
Definition newlines (s : list N) : Z :=
  Z.of_nat (length (filter (λ c, c = NL) s)).

(** The state after the chunks of [code] are read and bucketed by line:
    what the first loop of [partition] leaves. *)
Definition scanned (code : list N) : State :=
  (chunk_loop addChunk (S (length code)) (NewScanner code) initState).1.

(** The state after [partition] has processed the first [n] lines. *)
Definition stateAfter (code : list N) (n : nat) : State :=
  (foldl partition_line ([], [], scanned code)
         (take n (seqZ 1 (lineNum (scanned code))))).2.

(** The bracket fields hang together in one of two ways: no block is open,
    or some are and the closing character is one of the two brackets. *)
Definition bracketInv (s : State) : Prop :=
  (brackCount s = 0 ∧ closingCh s = SPACE ∧ brackOpenAt s = 0)
  ∨ (0 < brackCount s ∧ (closingCh s = RBRACE ∨ closingCh s = RPAREN)
     ∧ brackOpenAt s = lineNum s).

(** The qualifiers that [partition] looks up in [builtinPkgs] for [code]:
    the matches of [pkgPat], without their dot, in the TEXT chunks of every
    line, with repetitions. *)
Definition qualifiersOf (code : list N) : list (list N) :=
  concat (map (λ c, if kind c =? KTEXT
                    then map (λ m, take (length m - 1) m)
                             (pkgPat_FindAllString (text c))
                    else [])
              (chunksOf code).1).

(** An import of [before] is gone from [after]. *)
Definition importRemoved (before after : gmap (list N) bool) : Prop :=
  ∃ pkg, before !! pkg = Some true ∧ after !! pkg = None.

(** A toolchain for examples: the first source handed to it fails with a
    "redeclared" diagnostic for fmt, every later one succeeds.  The world
    is the number of sources compiled so far. *)
Definition failOnce (src : list N) (w : nat) : list N * list N * nat :=
  match w with
  | O => ([], str "gore_eval.go:3: fmt redeclared as imported package name"
              ++ nl, S w)
  | S _ => (str "ok" ++ nl, [], S w)
  end.

(** A toolchain that fails every source with a diagnostic that names no
    import. *)
Definition failAlways (src : list N) (w : nat) : list N * list N * nat :=
  ([], str "gore_eval.go:9: undefined: x" ++ nl, S w).

(** The inside of a quoted literal, piece by piece: a rune that stands for
    itself, or a backslash and the rune it escapes. *)
Inductive litItem :=
| Plain (c : N)
| Escaped (c : N).

Definition litText (items : list litItem) : list N :=
  concat (map (λ it, match it with
                     | Plain c => [c]
                     | Escaped c => [BACKSLASH; c]
                     end) items).

(** A rune that stands for itself inside a literal quoted with [q]. *)
Definition plainFor (q : N) (it : litItem) : Prop :=
  match it with
  | Plain c => c ≠ q ∧ c ≠ BACKSLASH ∧ c ≠ NL
  | Escaped _ => True
  end.

(** A rune that [readText] steps over without looking further. *)
Definition plainText (c : N) : Prop :=
  c ≠ SLASH ∧ c ≠ BACKTICK ∧ c ≠ DQUOTE ∧ c ≠ SQUOTE ∧ c ≠ NL.

(** The line that [partition] gets from [processLine] for line number
    [lineNo], which it processes in the state left by the lines before. *)
Definition emittedLine (code : list N) (lineNo : Z) : list N :=
  (processLine lineNo (stateAfter code (Z.to_nat (lineNo - 1)))).1.

(** ** What [run] makes of the output of the toolchain

    [run] itself starts the Go toolchain; what it does with the combined
    output [out] of the command, and with whether the command failed, is
    the code below. *)

(** [strings.Split(s, "\n")] *)
Fixpoint splitLines (s : list N) : list (list N) :=
  match s with
  | [] => [[]]
  | c :: s' =>
      if (c =? NL)%N then [] :: splitLines s'
      else match splitLines s' with
           | l :: ls => (c :: l) :: ls
           | [] => [[c]]
           end
  end.

(** [\d] *)
Definition isDigit (c : N) : bool := ((48 <=? c) && (c <=? 57))%N.

(** What follows the last "]:" of [s]: the greedy ".*" before "\]:" in
    [errPat] runs up to the last place from which the rest can match. *)
Fixpoint afterLastBracket (s : list N) : option (list N) :=
  match s with
  | [] => None
  | c :: s' =>
      match afterLastBracket s' with
      | Some y => Some y
      | None =>
          match s' with
          | d :: y => if (c =? 93)%N && (d =? COLON)%N then Some y else None
          | [] => None
          end
      end
  end.

(** [errPat.ReplaceAllString(e, ":$1:$2\n")] on a line [e], [errPat] being
    a colon, digits (group 1), a bracketed part, a colon and the rest of
    the line (group 2), anchored at both ends.  A line that does not match
    comes back as it is. *)
Definition errPat_replace (e : list N) : list N :=
  match e with
  | c0 :: e1 =>
      if (c0 =? COLON)%N then
        match takeWhile isDigit e1, dropWhile isDigit e1 with
        | d0 :: ds, b :: e2 =>
            if (b =? 91)%N then
              match afterLastBracket e2 with
              | Some y => [COLON] ++ (d0 :: ds) ++ [COLON] ++ y ++ [NL]
              | None => e
              end
            else e
        | _, _ => e
        end
      else e
  | [] => e
  end.

Definition banner : list N := str "# command-line-arguments".

(** The two strings that [run] returns when the command has printed [out]
    and has failed or not. *)
Definition runOutput (out : list N) (failed : bool) : list N * list N :=
  if failed then
    ([], foldl (λ err e, if HasPrefix e banner then err
                         else err ++ errPat_replace e)
               [] (splitLines out))
  else (out, []).

(** * Properties *)

(** ** The scanner and the chunk readers *)

Lemma ReadRune_cases (s : Scanner) :
  (∃ ch, input s !! pos s = Some ch ∧ (pos s < length (input s))%nat ∧
         ReadRune s = (ch, None, {| input := input s; pos := S (pos s) |}))
  ∨ ((length (input s) ≤ pos s)%nat ∧ ReadRune s = (NUL, Some EOF, s)).
Proof.
  unfold ReadRune. destruct (input s !! pos s) as [ch|] eqn:E.
  - left. exists ch. split; [done|]. split; [|done].
    by apply lookup_lt_Some in E.
  - right. split; [|done]. by apply lookup_ge_None in E.
Qed.

(** What a reader that started at offset [start] of [inp] may hand back: a
    chunk that is the input from [start] to the new read head, which lies
    beyond [start], and no error; or the panic of [readString], for which
    the input must hold a quote. *)
Definition reads_from (inp : list N) (start : nat)
    (r : outcome (Chunk * option error * Scanner)) : Prop :=
  match r with
  | Returns (c, e, s') =>
      input s' = inp ∧ e = None ∧ (start < pos s' ≤ length inp)%nat ∧
      text c = take (pos s' - start) (drop start inp) ∧ 0 ≤ numNL c
  | Panics p => (∃ at_, p = NewlineInString at_) ∧ (DQUOTE ∈ inp ∨ SQUOTE ∈ inp)
  | OutOfFuel => False
  end.

Lemma mkChunk_reads (inp : list N) (start : nat) (s : Scanner) k n e :
  input s = inp → (start < pos s ≤ length inp)%nat → 0 ≤ n →
  e = None ∨ e = Some EOF →
  reads_from inp start (Returns (mkChunk (length inp - start) s k n e)).
Proof.
  intros Hi Hp Hn He. unfold mkChunk, Slice, reads_from. rewrite Hi.
  replace (length inp - (length inp - start))%nat with start by lia.
  cbn [text numNL]. split_and!; try done; try lia.
  rewrite length_take, length_drop.
  destruct (Nat.ltb_spec 0 (Nat.min (pos s - start) (length inp - start)));
    [|lia].
  by destruct He as [-> | ->].
Qed.

Ltac read_rune s :=
  let ch := fresh "ch" in
  let Hch := fresh "Hch" in
  let Hlt := fresh "Hlt" in
  let Hrd := fresh "Hrd" in
  destruct (ReadRune_cases s) as [(ch & Hch & Hlt & Hrd) | (Hlt & Hrd)];
  rewrite Hrd; cbn [notNil orb andb input pos] in *.

Ltac finish_read :=
  apply mkChunk_reads; cbn [input pos];
  first [done | lia | (by left) | (by right)].

Lemma readSingleLineComment_loop_reads inp start fuel s :
  input s = inp → (start < pos s ≤ length inp)%nat → (Len s < fuel)%nat →
  reads_from inp start (readSingleLineComment_loop fuel (length inp - start) s).
Proof.
  revert s. induction fuel as [|fuel IH]; intros s Hi Hp Hf; [lia|].
  unfold Len in Hf. subst inp. cbn [readSingleLineComment_loop].
  read_rune s; [|finish_read].
  destruct (ch =? NL)%N; [finish_read|].
  apply IH; cbn [input pos]; unfold Len; cbn [input pos]; try done; lia.
Qed.

Lemma readMultilineComment_loop_reads inp start fuel n s :
  input s = inp → (start < pos s ≤ length inp)%nat → (Len s < fuel)%nat →
  0 ≤ n →
  reads_from inp start
    (readMultilineComment_loop fuel n (length inp - start) s).
Proof.
  revert s n. induction fuel as [|fuel IH]; intros s n Hi Hp Hf Hn; [lia|].
  unfold Len in Hf. subst inp. cbn [readMultilineComment_loop].
  read_rune s; [|finish_read].
  destruct (ch =? STAR)%N.
  - match goal with |- context [ReadRune ?s1] => read_rune s1 end;
      [|finish_read].
    destruct (ch0 =? SLASH)%N; [finish_read|].
    apply IH; unfold Len; cbn [input pos]; try done; lia.
  - destruct (ch =? NL)%N;
      apply IH; unfold Len; cbn [input pos]; try done; lia.
Qed.

Lemma readString_loop_reads inp start fuel s endCh :
  input s = inp → (start < pos s ≤ length inp)%nat → (Len s < fuel)%nat →
  DQUOTE ∈ inp ∨ SQUOTE ∈ inp →
  reads_from inp start (readString_loop fuel (length inp - start) s endCh).
Proof.
  revert s. induction fuel as [|fuel IH]; intros s Hi Hp Hf Hq; [lia|].
  unfold Len in Hf. subst inp. cbn [readString_loop].
  read_rune s; [|finish_read].
  destruct (ch =? endCh)%N; [finish_read|].
  destruct (ch =? BACKSLASH)%N.
  - match goal with |- context [ReadRune ?s1] => read_rune s1 end;
      apply IH; unfold Len; cbn [input pos]; try done; lia.
  - destruct (ch =? NL)%N; [split; [by eexists | done]|].
    apply IH; unfold Len; cbn [input pos]; try done; lia.
Qed.

Lemma readMultilineString_loop_reads inp start fuel n s :
  input s = inp → (start < pos s ≤ length inp)%nat → (Len s < fuel)%nat →
  0 ≤ n →
  reads_from inp start
    (readMultilineString_loop fuel n (length inp - start) s).
Proof.
  revert s n. induction fuel as [|fuel IH]; intros s n Hi Hp Hf Hn; [lia|].
  unfold Len in Hf. subst inp. cbn [readMultilineString_loop].
  read_rune s; [|finish_read].
  destruct (ch =? BACKTICK)%N; [finish_read|].
  destruct (ch =? NL)%N;
    apply IH; unfold Len; cbn [input pos]; try done; lia.
Qed.

Lemma readText_loop_reads inp start fuel s :
  input s = inp → (start < pos s ≤ length inp)%nat → (Len s < fuel)%nat →
  reads_from inp start (readText_loop fuel (length inp - start) s).
Proof.
  revert s. induction fuel as [|fuel IH]; intros s Hi Hp Hf; [lia|].
  unfold Len in Hf. subst inp. cbn [readText_loop].
  read_rune s; [|finish_read].
  destruct (ch =? SLASH)%N.
  - unfold Mark, Len; cbn [input pos].
    match goal with |- context [ReadRune ?s1] => read_rune s1 end.
    + destruct ((ch0 =? STAR)%N || (ch0 =? SLASH)%N).
      * unfold Reset; cbn [input pos].
        replace (length (input s) - (length (input s) - S (pos s) + 1))%nat
          with (pos s) by lia.
        finish_read.
      * apply IH; unfold Len; cbn [input pos]; try done; lia.
    + cbn [N.eqb NUL STAR SLASH orb].
      apply IH; unfold Len; cbn [input pos]; try done; lia.
  - destruct ((ch =? BACKTICK)%N || (ch =? DQUOTE)%N || (ch =? SQUOTE)%N).
    + unfold UnreadRune; cbn [input pos Nat.pred]. finish_read.
    + destruct (ch =? NL)%N; [finish_read|].
      apply IH; unfold Len; cbn [input pos]; try done; lia.
Qed.

Lemma nextChunk_reads (s : Scanner) :
  (pos s ≤ length (input s))%nat →
  ((length (input s) ≤ pos s)%nat ∧ nextChunk s = Returns (zeroChunk, Some EOF, s))
  ∨ ((pos s < length (input s))%nat ∧ reads_from (input s) (pos s) (nextChunk s)).
Proof.
  intros Hp. unfold nextChunk, Mark, Len.
  read_rune s; [right; split; [done|] | by left].
  assert (Hgo : ∀ s1 : Scanner, (Len s1 < S (Len s1))%nat) by (intros; lia).
  destruct (ch =? SLASH)%N.
  { match goal with |- context [ReadRune ?s1] => read_rune s1 end;
      [|finish_read].
    destruct (ch0 =? SLASH)%N;
      [apply readSingleLineComment_loop_reads; cbn [input pos]; try done; lia|].
    destruct (ch0 =? STAR)%N;
      [apply readMultilineComment_loop_reads; cbn [input pos]; try done; lia|].
    apply readText_loop_reads; cbn [input pos]; try done; lia. }
  destruct ((ch =? DQUOTE)%N || (ch =? SQUOTE)%N) eqn:Hquote.
  { apply readString_loop_reads; cbn [input pos]; try done; try lia.
    apply list_elem_of_lookup_2 in Hch.
    apply orb_true_iff in Hquote as [->%N.eqb_eq | ->%N.eqb_eq]; auto. }
  destruct (ch =? BACKTICK)%N;
    [apply readMultilineString_loop_reads; cbn [input pos]; try done; lia|].
  destruct (ch =? NL)%N; [finish_read|].
  apply readText_loop_reads; cbn [input pos]; try done; lia.
Qed.

(** ** The chunk sequence *)

Lemma chunk_loop_snoc fuel s acc :
  chunk_loop snoc fuel s acc
  = (acc ++ (chunk_loop snoc fuel s []).1, (chunk_loop snoc fuel s []).2).
Proof.
  revert s acc. induction fuel as [|fuel IH]; intros s acc; cbn [chunk_loop].
  { by rewrite app_nil_r. }
  destruct (nextChunk s) as [[[c e] s']| |]; cbn [fst snd];
    try by rewrite app_nil_r.
  destruct e as [[]|]; cbn [fst snd]; [by rewrite app_nil_r|].
  rewrite (IH s' (snoc acc c)), (IH s' (snoc [] c)). cbn [fst snd].
  unfold snoc. by rewrite <- !app_assoc.
Qed.

(** Whatever [add] does with the chunks, the loop hands it the chunks of
    the list-building loop, one by one. *)
Lemma chunk_loop_foldl {St : Type} (add : St → Chunk → St) fuel s (st : St) :
  chunk_loop add fuel s st
  = (foldl add st (chunk_loop snoc fuel s []).1, (chunk_loop snoc fuel s []).2).
Proof.
  revert s st. induction fuel as [|fuel IH]; intros s st; cbn [chunk_loop].
  { done. }
  destruct (nextChunk s) as [[[c e] s']| |]; cbn [fst snd]; try done.
  destruct e as [[]|]; cbn [fst snd]; [done|].
  rewrite IH, (chunk_loop_snoc fuel s' (snoc [] c)). cbn [fst snd].
  unfold snoc at 2. cbn [app]. by rewrite foldl_app || done.
Qed.

Lemma take_drop_step (l : list N) (a b : nat) :
  (a ≤ b)%nat → take (b - a) (drop a l) ++ drop b l = drop a l.
Proof.
  intros H. rewrite <- (take_drop (b - a) (drop a l)) at 2.
  rewrite drop_drop. by replace (a + (b - a))%nat with b by lia.
Qed.

(** The chunks read from offset [pos s] on: they tile the unread input,
    their counts are not negative, and the loop ends at end of input or in
    the panic of [readString], with fuel to spare. *)
Lemma chunk_loop_tiles fuel s :
  (pos s ≤ length (input s))%nat → (Len s < fuel)%nat →
  Forall (λ c, 0 ≤ numNL c) (chunk_loop snoc fuel s []).1 ∧
  match chunk_loop snoc fuel s [] with
  | (cs, Returns _) => concat (text <$> cs) = drop (pos s) (input s)
  | (cs, Panics p) =>
      (∃ at_, p = NewlineInString at_) ∧
      (DQUOTE ∈ input s ∨ SQUOTE ∈ input s) ∧
      ∃ rest, drop (pos s) (input s) = concat (text <$> cs) ++ rest
  | (_, OutOfFuel) => False
  end.
Proof.
  revert s. induction fuel as [|fuel IH]; intros s Hp Hf; [lia|].
  cbn [chunk_loop].
  destruct (nextChunk_reads s Hp) as [[Hle ->] | [Hlt Hr]].
  { cbn. split; [done|]. by rewrite drop_ge. }
  destruct (nextChunk s) as [[[c e] s']| |]; cbn [reads_from] in Hr.
  - destruct Hr as (Hi & -> & Hpos & Htxt & Hnl).
    rewrite chunk_loop_snoc. cbn [fst snd].
    change (snoc [] c) with [c]. cbn [app].
    destruct (IH s') as [Hall Hrest].
    { rewrite Hi. lia. }
    { unfold Len in *. rewrite Hi. lia. }
    split; [by constructor|].
    destruct (chunk_loop snoc fuel s' []) as [cs [[]|p|]]; cbn [fst snd] in *.
    + rewrite fmap_cons. cbn [concat]. rewrite Htxt, Hrest, Hi.
      apply take_drop_step. lia.
    + destruct Hrest as (Hp' & Hq & rest & Hrest). rewrite Hi in Hq.
      split_and!; [done..|]. exists rest.
      rewrite fmap_cons. cbn [concat]. rewrite <- app_assoc, <- Hrest, Htxt, Hi.
      symmetry. apply take_drop_step. lia.
    + done.
  - cbn. destruct Hr as [Hp' Hq]. split_and!; [done..|]. by eexists.
  - done.
Qed.

(** C1. For every input the chunk sequence is finite, and when repeated
    calls of [nextChunk] reach end of input, the texts of the chunks they
    produced, concatenated in order, are the input, rune for rune.  The only
    other way for the sequence to end is the panic of [readString] on a
    newline inside a quoted literal, which takes a quote in the input; the
    chunks produced until then are a prefix of the input. *)
Theorem chunk_concatenation_roundtrip (code : list N) :
  match chunksOf code with
  | (cs, Returns _) => concat (text <$> cs) = code
  | (cs, Panics p) =>
      (∃ at_, p = NewlineInString at_) ∧
      (DQUOTE ∈ code ∨ SQUOTE ∈ code) ∧
      ∃ rest, code = concat (text <$> cs) ++ rest
  | (_, OutOfFuel) => False
  end.
Proof.
  unfold chunksOf.
  destruct (chunk_loop_tiles (S (length code)) (NewScanner code)) as [_ H];
    [cbn; lia | unfold Len; cbn; lia |].
  exact H.
Qed.

(** An input without quotes is chunked up to its end, whatever else it
    holds. *)
Lemma chunksOf_without_quotes (code : list N) :
  DQUOTE ∉ code → SQUOTE ∉ code →
  ∃ cs, chunksOf code = (cs, Returns tt) ∧ concat (text <$> cs) = code.
Proof.
  intros Hd Hs. unfold chunksOf.
  destruct (chunk_loop_tiles (S (length code)) (NewScanner code)) as [_ H];
    [cbn; lia | unfold Len; cbn; lia |].
  destruct (chunk_loop snoc (S (length code)) (NewScanner code) [])
    as [cs [[]|p|]]; [by exists cs | | done].
  destruct H as (_ & [Hq|Hq] & _); cbn in Hq; done.
Qed.

(** A text, a comment, a raw literal over two lines and a quoted literal:
    the chunks end at end of input and give the input back. *)
Example chunks_of_mixed_input :
  let code := str "a := `x" ++ nl ++ str "y` // c" ++ nl ++ str "f('q', 1/2) /* d */" in
  (chunksOf code).2 = Returns tt
  ∧ kind <$> (chunksOf code).1 = [KTEXT; KSTRING; KTEXT; KCOMMENT; KTEXT; KSTRING; KTEXT; KCOMMENT]
  ∧ concat (text <$> (chunksOf code).1) = code.
Proof. split_and!; vm_compute; reflexivity. Qed.

(** ** Line-break counts *)

(** C3. A raw literal that the end of the input cuts short is handed back
    with a line-break count of 1 whatever it contains: here the text has no
    newline at all.  [readMultilineString] passes the constant 1 where
    [readMultilineComment] passes [numLines]. *)
Theorem unterminated_raw_literal_count :
  chunksOf (str "`abc")
  = ([{| kind := KSTRING; text := str "`abc"; numNL := 1 |}], Returns tt)
  ∧ newlines (str "`abc") = 0.
Proof. split; vm_compute; reflexivity. Qed.

(** The same count for a raw literal with two newlines: the count is 1. *)
Example unterminated_raw_literal_two_lines :
  let code := str "`a" ++ nl ++ str "b" ++ nl ++ str "c" in
  (numNL <$> (chunksOf code).1) = [1] ∧ newlines code = 2.
Proof. split; vm_compute; reflexivity. Qed.

(** A comment of the form // that the end of the input cuts short counts a
    newline that is not there. *)
Example unterminated_line_comment_count :
  chunksOf (str "//abc")
  = ([{| kind := KCOMMENT; text := str "//abc"; numNL := 1 |}], Returns tt).
Proof. vm_compute; reflexivity. Qed.

(** A newline right after a star inside a block comment is not counted. *)
Example block_comment_star_newline :
  let code := str "/* a *" ++ nl ++ str " b */" in
  chunksOf code = ([{| kind := KCOMMENT; text := code; numNL := 0 |}], Returns tt)
  ∧ newlines code = 1.
Proof. split; vm_compute; reflexivity. Qed.

(** ** Single-line comments *)

Lemma ReadRune_lookup (s : Scanner) (c : N) :
  input s !! pos s = Some c →
  ReadRune s = (c, None, {| input := input s; pos := S (pos s) |}).
Proof. unfold ReadRune. by intros ->. Qed.

(** The loop of [readSingleLineComment] over [n] runes other than a newline
    and the newline after them. *)
Lemma readSingleLineComment_loop_body inp mark n : ∀ p fuel,
  (∀ i, (i < n)%nat → ∃ c, inp !! (p + i)%nat = Some c ∧ c ≠ NL) →
  inp !! (p + n)%nat = Some NL → (n < fuel)%nat →
  readSingleLineComment_loop fuel mark {| input := inp; pos := p |}
  = Returns (mkChunk mark {| input := inp; pos := S (p + n) |} KCOMMENT 1 None).
Proof.
  induction n as [|n IH]; intros p fuel Hbody Hnl Hf;
    (destruct fuel as [|fuel]; [lia|]); cbn [readSingleLineComment_loop].
  - rewrite Nat.add_0_r in *.
    rewrite (ReadRune_lookup _ NL) by done. done.
  - destruct (Hbody 0%nat) as (c & Hc & Hne); [lia|].
    rewrite Nat.add_0_r in Hc.
    rewrite (ReadRune_lookup _ c) by done. cbn [notNil orb input pos].
    destruct (N.eqb_spec c NL) as [->|_]; [done|].
    rewrite (IH (S p) fuel).
    + do 3 f_equal. lia.
    + intros i Hi. destruct (Hbody (S i)) as (c' & Hc' & Hne'); [lia|].
      exists c'. split; [|done]. rewrite <- Hc'. f_equal. lia.
    + rewrite <- Hnl. f_equal. lia.
    + lia.
Qed.

(** C4, as the code has it.  A single-line comment that a newline ends is
    handed back with that newline as the last character of its text, and
    with a line-break count of 1; the read head is left after the newline. *)
Theorem single_line_comment_keeps_newline (pre body rest : list N) :
  NL ∉ body →
  let code := pre ++ str "//" ++ body ++ NL :: rest in
  nextChunk {| input := code; pos := length pre |}
  = Returns ({| kind := KCOMMENT; text := str "//" ++ body ++ [NL]; numNL := 1 |},
             None,
             {| input := code; pos := (length pre + 2 + length body + 1)%nat |}).
Proof.
  intros Hnl code.
  assert (Hstr : str "//" = [SLASH; SLASH]) by reflexivity.
  assert (H0 : code !! length pre = Some SLASH).
  { subst code; rewrite Hstr; cbn [app]. by rewrite list_lookup_middle. }
  assert (H1 : code !! S (length pre) = Some SLASH).
  { subst code; rewrite Hstr; cbn [app]. rewrite lookup_app_r by lia.
    by replace (S (length pre) - length pre)%nat with 1%nat by lia. }
  assert (Hb : ∀ i, (i < length body)%nat →
                 ∃ c, code !! (S (S (length pre)) + i)%nat = Some c ∧ c ≠ NL).
  { intros i Hi. destruct (lookup_lt_is_Some_2 body i Hi) as [c Hc].
    exists c. split.
    - subst code; rewrite Hstr. rewrite lookup_app_r by lia.
      rewrite lookup_app_r by (cbn [length]; lia).
      rewrite lookup_app_l by (cbn [length]; lia).
      rewrite <- Hc. f_equal. cbn [length]. lia.
    - intros ->. apply Hnl. by eapply list_elem_of_lookup_2. }
  assert (H2 : code !! (S (S (length pre)) + length body)%nat = Some NL).
  { subst code; rewrite Hstr. rewrite lookup_app_r by lia.
    rewrite lookup_app_r by (cbn [length]; lia).
    apply list_lookup_middle. cbn [length]. lia. }
  assert (Hlen : length code
                 = (length pre + 2 + length body + 1 + length rest)%nat).
  { subst code; rewrite Hstr; cbn [app]. rewrite !length_app. cbn [length]. rewrite length_app.
    cbn [length]. lia. }
  assert (Hsl : take (length body + 3) (drop (length pre) code)
                = str "//" ++ body ++ [NL]).
  { subst code; rewrite Hstr; cbn [app]. rewrite drop_app_length.
    replace (SLASH :: SLASH :: body ++ NL :: rest)
      with (([SLASH; SLASH] ++ body ++ [NL]) ++ rest)
      by (cbn [app]; by rewrite <- !app_assoc).
    apply take_app_length'. cbn [app length]. rewrite length_app.
    cbn [length]. lia. }
  clearbody code.
  unfold nextChunk, Mark, Len. cbn [input pos].
  rewrite (ReadRune_lookup _ SLASH) by done. cbn [notNil input pos].
  change (SLASH =? SLASH)%N with true. cbn iota.
  rewrite (ReadRune_lookup _ SLASH) by done. cbn [notNil input pos].
  change (SLASH =? SLASH)%N with true. cbn iota.
  unfold readSingleLineComment.
  rewrite (readSingleLineComment_loop_body code _ (length body)); try done.
  2:{ unfold Len. cbn [input pos]. lia. }
  unfold mkChunk, Slice. cbn [input pos isEOF]. rewrite andb_false_r.
  replace (length code - (length code - length pre))%nat
    with (length pre) by lia.
  replace (S (S (S (length pre)) + length body) - length pre)%nat
    with (length body + 3)%nat by lia.
  rewrite Hsl. do 3 f_equal. lia.
Qed.

Lemma single_line_comment_keeps_newline_witness :
  nextChunk {| input := str "x //a" ++ nl ++ str "b"; pos := 2 |}
  = Returns ({| kind := KCOMMENT; text := str "//a" ++ nl; numNL := 1 |},
             None,
             {| input := str "x //a" ++ nl ++ str "b"; pos := 6 |}).
Proof.
  apply (single_line_comment_keeps_newline (str "x ") (str "a") (str "b")).
  vm_compute. intros H. by repeat (inversion H as [|? ? ? H']; clear H; rename H' into H).
Defined.

(** C4, as the specification words it, fails: the comment chunk of this
    input has the newline in its text. *)
Lemma single_line_comment_text_has_newline :
  ¬ (∀ c : Chunk, c ∈ (chunksOf (str "//a" ++ nl ++ str "b")).1 →
       kind c = KCOMMENT → HasPrefix (text c) (str "//") = true →
       NL ∉ text c).
Proof.
  intros H.
  apply (H {| kind := KCOMMENT; text := str "//a" ++ nl; numNL := 1 |});
    vm_compute; try reflexivity.
  - apply list_elem_of_here.
  - do 3 apply list_elem_of_further. apply list_elem_of_here.
Qed.

(** ** The partition state *)

Lemma TrimLeft_head (s : list N) c l :
  TrimLeft s [SPACE; TAB] = c :: l → c ≠ SPACE ∧ c ≠ TAB.
Proof.
  induction s as [|a s IH]; cbn [TrimLeft]; [done|].
  case_bool_decide as Ha; [done|]. clear IH.
  intros [= -> ->]. split; intros ->; apply Ha; set_solver.
Qed.

Lemma inferLine_frame (cs : list Chunk) (s : State) :
  lineNum (inferLine cs s) = lineNum s ∧
  isTopLevel (inferLine cs s) = isTopLevel s ∧
  brackOpenAt (inferLine cs s) = brackOpenAt s ∧
  brackCount (inferLine cs s) = brackCount s ∧
  closingCh (inferLine cs s) = closingCh s ∧
  chunks (inferLine cs s) = chunks s.
Proof.
  unfold inferLine. revert s.
  induction cs as [|c cs IH]; intros s; cbn [foldl]; [done|].
  destruct (kind c =? KTEXT); [|apply IH].
  destruct (IH (set_pkgsToImport s (inferPackages (text c) (pkgsToImport s))))
    as (-> & -> & -> & -> & -> & ->). done.
Qed.

Lemma inferLine_bracketInv cs s : bracketInv s → bracketInv (inferLine cs s).
Proof.
  unfold bracketInv.
  destruct (inferLine_frame cs s) as (-> & _ & -> & -> & -> & _). done.
Qed.

Lemma lineStart_frame l s :
  lineNum (lineStart l s) = lineNum s ∧ chunks (lineStart l s) = chunks s
  ∧ pkgsToImport (lineStart l s) = pkgsToImport s.
Proof.
  unfold lineStart. destruct l as [|l0 l]; [done|].
  destruct (l0 =? closingCh s)%N; cbn.
  - by destruct (brackCount s - 1 =? 0).
  - by destruct (brackCount s =? 0).
Qed.

Lemma lineStart_bracketInv l s :
  (∀ c l', l = c :: l' → c ≠ SPACE) →
  bracketInv s → bracketInv (lineStart l s).
Proof.
  intros Hl Hinv. unfold lineStart. destruct l as [|l0 l]; [done|].
  specialize (Hl l0 l eq_refl).
  destruct (N.eqb_spec l0 (closingCh s)) as [Heq|Hne].
  - cbn [set_brackCount brackCount].
    destruct (Z.eqb_spec (brackCount s - 1) 0) as [H0|H0];
      unfold bracketInv; cbn.
    + by left.
    + right. destruct Hinv as [(? & Hc & ?)|(? & ? & ?)]; [congruence|].
      split_and!; try done. lia.
  - destruct (Z.eqb_spec (brackCount s) 0) as [H0|H0]; [|done].
    unfold bracketInv in *. cbn. done.
Qed.

Lemma lineEnd_frame l s :
  lineNum (lineEnd l s) = lineNum s ∧ chunks (lineEnd l s) = chunks s
  ∧ pkgsToImport (lineEnd l s) = pkgsToImport s
  ∧ isTopLevel (lineEnd l s) = isTopLevel s.
Proof.
  unfold lineEnd, openBracket. cbn [set_closingCh brackCount].
  destruct (last l) as [c|]; [|done].
  destruct (c =? LBRACE)%N; [by destruct (brackCount s =? 0)|].
  destruct (c =? LPAREN)%N; [by destruct (brackCount s =? 0)|done].
Qed.

Lemma openBracket_bracketInv s ch :
  ch = RBRACE ∨ ch = RPAREN → bracketInv s → bracketInv (openBracket s ch).
Proof.
  intros Hch Hinv. unfold openBracket, bracketInv in *.
  cbn [set_closingCh brackCount].
  destruct Hinv as [(H0 & _ & _)|(Hpos & _ & Hopen)]; right.
  - rewrite H0. cbn. split_and!; try done; lia.
  - destruct (Z.eqb_spec (brackCount s) 0) as [?|_]; [lia|].
    cbn. split_and!; try done. lia.
Qed.

Lemma lineEnd_bracketInv l s : bracketInv s → bracketInv (lineEnd l s).
Proof.
  intros Hinv. unfold lineEnd. destruct (last l) as [c|]; [|done].
  destruct (c =? LBRACE)%N; [apply openBracket_bracketInv; auto|].
  destruct (c =? LPAREN)%N; [apply openBracket_bracketInv; auto|done].
Qed.

Lemma processLine_bracketInv lineNo s :
  bracketInv s →
  bracketInv (processLine lineNo s).2
  ∧ lineNum (processLine lineNo s).2 = lineNum s
  ∧ chunks (processLine lineNo s).2 = chunks s.
Proof.
  intros Hinv. unfold processLine.
  destruct (chunks s !! lineNo) as [cs|]; [|done]. cbn [snd].
  set (l := TrimLeft (extractTxt cs) [SPACE; TAB]).
  destruct (lineEnd_frame (TrimSpace l) (lineStart l (inferLine cs s)))
    as (-> & -> & _).
  destruct (lineStart_frame l (inferLine cs s)) as (-> & -> & _).
  destruct (inferLine_frame cs s) as (-> & _ & _ & _ & _ & ->).
  split; [|done].
  apply lineEnd_bracketInv, lineStart_bracketInv, inferLine_bracketInv, Hinv.
  intros c l' Hcl. by apply TrimLeft_head in Hcl as [? _].
Qed.

Lemma partition_line_state top body s n :
  ∃ top' body',
    partition_line (top, body, s) n = (top', body', (processLine n s).2).
Proof.
  unfold partition_line. destruct (processLine n s) as [line s1].
  destruct (isTopLevel s1); eauto.
Qed.

Lemma partition_lines_bracketInv (ns : list Z) : ∀ top body s,
  bracketInv s →
  let s' := (foldl partition_line (top, body, s) ns).2 in
  bracketInv s' ∧ lineNum s' = lineNum s ∧ chunks s' = chunks s.
Proof.
  induction ns as [|n ns IH]; intros top body s Hinv; cbn [foldl]; [done|].
  destruct (partition_line_state top body s n) as (top' & body' & ->).
  destruct (processLine_bracketInv n s Hinv) as (Hinv' & Hln & Hch).
  destruct (IH top' body' _ Hinv') as (? & ? & ?).
  split_and!; [done | congruence | congruence].
Qed.

Lemma addChunk_frame s c :
  brackCount (addChunk s c) = brackCount s ∧
  closingCh (addChunk s c) = closingCh s ∧
  brackOpenAt (addChunk s c) = brackOpenAt s ∧
  isTopLevel (addChunk s c) = isTopLevel s ∧
  pkgsToImport (addChunk s c) = pkgsToImport s ∧
  lineNum (addChunk s c) = lineNum s + numNL c.
Proof. done. Qed.

Lemma addChunks_frame (cs : list Chunk) : ∀ s,
  Forall (λ c, 0 ≤ numNL c) cs →
  let s' := foldl addChunk s cs in
  brackCount s' = brackCount s ∧ closingCh s' = closingCh s ∧
  brackOpenAt s' = brackOpenAt s ∧ isTopLevel s' = isTopLevel s ∧
  pkgsToImport s' = pkgsToImport s ∧ lineNum s ≤ lineNum s'.
Proof.
  induction cs as [|c cs IH]; intros s Hall; cbn [foldl]; [by split_and!|].
  inversion Hall as [|? ? Hc Hcs]; subst.
  destruct (IH (addChunk s c) Hcs) as (-> & -> & -> & -> & -> & Hle).
  cbn in *. split_and!; try done. lia.
Qed.

Lemma scanned_eq code : scanned code = foldl addChunk initState (chunksOf code).1.
Proof. unfold scanned, chunksOf. by rewrite chunk_loop_foldl. Qed.

Lemma chunksOf_numNL code : Forall (λ c, 0 ≤ numNL c) (chunksOf code).1.
Proof.
  unfold chunksOf.
  apply (chunk_loop_tiles (S (length code)) (NewScanner code));
    [cbn; lia | unfold Len; cbn; lia].
Qed.

Lemma scanned_bracketInv code :
  bracketInv (scanned code) ∧ 1 ≤ lineNum (scanned code).
Proof.
  rewrite scanned_eq.
  destruct (addChunks_frame (chunksOf code).1 initState (chunksOf_numNL code))
    as (Hc & Hch & Ho & _ & _ & Hle).
  split; [|exact Hle]. left. by rewrite Hc, Hch, Ho.
Qed.

Lemma stateAfter_bracketInv code n :
  bracketInv (stateAfter code n) ∧ 1 ≤ lineNum (stateAfter code n).
Proof.
  unfold stateAfter. destruct (scanned_bracketInv code) as [Hinv Hle].
  destruct (partition_lines_bracketInv
              (take n (seqZ 1 (lineNum (scanned code)))) [] [] _ Hinv)
    as (H1 & H2 & _).
  split; [done|]. cbn zeta in H2. by rewrite H2.
Qed.

(** C7. In the state that [partition] starts from, before the first line
    and after every processed line, [brackCount] is zero exactly when
    [closingCh] is the dummy blank; a line that leaves
    [closingCh] or [brackOpenAt] reset leaves the depth at zero; and the
    block of [processLine] that resets them changes them only when the
    depth has come back to zero. *)
Theorem partition_state_invariant (code : list N) (n : nat) :
  let s := stateAfter code n in
  let s' := stateAfter code (S n) in
  (brackCount initState = 0 ∧ closingCh initState = SPACE)
  ∧ (brackCount s = 0 ↔ closingCh s = SPACE)
  ∧ ((closingCh s ≠ SPACE ∧ closingCh s' = SPACE)
     ∨ (brackOpenAt s ≠ 0 ∧ brackOpenAt s' = 0) → brackCount s' = 0)
  ∧ (∀ l st,
       closingCh (lineStart l st) ≠ closingCh st
       ∨ brackOpenAt (lineStart l st) ≠ brackOpenAt st →
       brackCount (lineStart l st) = 0
       ∧ closingCh (lineStart l st) = SPACE
       ∧ brackOpenAt (lineStart l st) = 0).
Proof.
  intros s s'.
  destruct (stateAfter_bracketInv code n) as [Hs _].
  destruct (stateAfter_bracketInv code (S n)) as [Hs' Hle].
  fold s in Hs. fold s' in Hs', Hle. split_and!.
  - done.
  - done.
  - destruct Hs as [(? & ? & ?)|(? & [Hc|Hc] & ?)]; [done| |];
      (split; [lia | rewrite Hc; done]).
  - destruct Hs' as [(? & ? & ?)|(? & [Hc|Hc] & Ho)]; [done| |];
      (intros [[_ Hx]|[_ Hx]]; [by rewrite Hc in Hx | lia]).
  - intros l st. unfold lineStart. destruct l as [|l0 l]; [by intros [|]|].
    destruct (l0 =? closingCh st)%N.
    + cbn [set_brackCount brackCount].
      destruct (Z.eqb_spec (brackCount st - 1) 0) as [H0|H0]; cbn;
        [done | by intros [|]].
    + destruct (brackCount st =? 0); cbn; by intros [|].
Qed.

(** The invariant at work on a block that opens on line 1 and closes on
    line 3. *)
Lemma partition_state_invariant_witness :
  let code := str "func f() {" ++ nl ++ str "x := 1" ++ nl ++ str "}" ++ nl in
  (brackCount (stateAfter code 1) = 1 ∧ closingCh (stateAfter code 1) = RBRACE)
  ∧ (brackCount (stateAfter code 3) = 0 ∧ closingCh (stateAfter code 3) = SPACE)
  ∧ (brackCount (stateAfter code 2) = 0 ↔ closingCh (stateAfter code 2) = SPACE).
Proof.
  intros code.
  destruct (partition_state_invariant code 2) as (_ & Hiff & _).
  split_and!; try (vm_compute; reflexivity). exact Hiff.
Defined.

(** ** The unclosed-bracket error *)

(** Whenever [partition] panics over an unclosed bracket, the line it names
    is the line count that the chunk loop left in [state.lineNum]: the
    opening branches of [processLine] store [state.lineNum], not the number
    of the line being processed. *)
Lemma unclosed_bracket_names_line_count code openAt count :
  partition code = Panics (BracketNotClosed openAt count) →
  openAt = lineNum (scanned code).
Proof.
  unfold partition, scanned.
  destruct (chunk_loop addChunk (S (length code)) (NewScanner code) initState)
    as [st o] eqn:E.
  assert (Hst : st = scanned code) by (unfold scanned; by rewrite E).
  cbn [fst]. destruct o as [[]|p|]; [| |done].
  - unfold partition_lines.
    destruct (scanned_bracketInv code) as [Hinv _]. rewrite <- Hst in Hinv.
    destruct (partition_lines_bracketInv (seqZ 1 (lineNum st)) [] [] st Hinv)
      as (Hinv' & Hln & _).
    destruct (foldl partition_line ([], [], st) (seqZ 1 (lineNum st)))
      as [[top body] st'].
    cbn [snd] in *. destruct (Z.ltb_spec 0 (brackCount st')); [|done].
    intros [= <- <-].
    destruct Hinv' as [(? & _)|(_ & _ & ->)]; [lia|done].
  - destruct (chunk_loop_tiles (S (length code)) (NewScanner code)) as [_ Hrt];
      [cbn; lia | unfold Len; cbn; lia |].
    rewrite chunk_loop_foldl in E.
    destruct (chunk_loop snoc (S (length code)) (NewScanner code) [])
      as [cs o']. cbn [fst snd] in E. injection E as _ ->.
    intros [= ->]. by destruct Hrt as [[at_ [=]] _].
Qed.

(** [partition] and [Eval] never run out of fuel, and [Eval] always
    returns: every panic of [partition] is recovered. *)
Lemma partition_total code : partition code ≠ OutOfFuel.
Proof.
  unfold partition. rewrite chunk_loop_foldl.
  destruct (chunk_loop_tiles (S (length code)) (NewScanner code)) as [_ H];
    [cbn; lia | unfold Len; cbn; lia |].
  destruct (chunk_loop snoc (S (length code)) (NewScanner code) [])
    as [cs [[]|p|]]; cbn [fst snd]; [|done|done].
  destruct (partition_lines _) as [[top body] st].
  by destruct (0 <? brackCount st).
Qed.

Lemma Eval_returns (World : Type)
    (run : list N → World → list N * list N * World) code w :
  ∃ r, Eval World run code w = Returns r.
Proof.
  unfold Eval. destruct (hasPackageDecl code).
  - destruct (run code w) as [[o e] w']. eauto.
  - pose proof (partition_total (expandAliases code)) as Ht.
    destruct (partition (expandAliases code)) as [[[top body] pk]|p|]; eauto.
    done.
Qed.

(** C2. On this input the brace opened on line 1 is never closed, and the
    error that [partition] raises, and that [Eval] returns, names line 3:
    the count of lines of the input, not the line of the brace. *)
Theorem unclosed_bracket_reported_line :
  let code := str "func f() {" ++ nl ++ str "x := 1" ++ nl in
  partition code = Panics (BracketNotClosed 3 1)
  ∧ ∀ (World : Type) (run : list N → World → list N * list N * World) w,
      Eval World run code w
      = Returns {| out := []; err := str "1:3: Bracket or paren not closed. 1";
                   compiled := []; world := w |}.
Proof. split; [|intros World run w]; vm_compute; reflexivity. Qed.

(** ** Lines without structural text *)

Lemma trimLeftSpace_head s c l : trimLeftSpace s = c :: l → isSpace c = false.
Proof.
  induction s as [|a s IH]; cbn [trimLeftSpace]; [done|].
  destruct (isSpace a) eqn:Ha; [done|]. clear IH. by intros [= <- _].
Qed.

Lemma trimLeftSpace_nil s :
  trimLeftSpace s = [] ↔ Forall (λ c, isSpace c = true) s.
Proof.
  induction s as [|a s IH]; cbn [trimLeftSpace]; [done|].
  destruct (isSpace a) eqn:Ha.
  - rewrite IH. split; [by constructor | by inversion 1].
  - split; [done|]. inversion 1; congruence.
Qed.

(** [TrimSpace] leaves nothing exactly when the text is white space only. *)
Lemma TrimSpace_nil s : TrimSpace s = [] ↔ Forall (λ c, isSpace c = true) s.
Proof.
  unfold TrimSpace. split.
  - intros H. apply (f_equal (@rev N)) in H. rewrite rev_involutive in H.
    cbn in H. apply trimLeftSpace_nil in H.
    destruct (trimLeftSpace s) as [|c l] eqn:E; [by apply trimLeftSpace_nil|].
    apply trimLeftSpace_head in E.
    apply Forall_rev in H. rewrite rev_involutive in H.
    inversion H; congruence.
  - intros H. apply trimLeftSpace_nil in H. by rewrite H.
Qed.

Lemma TrimLeft_Forall (P : N → Prop) s cutset :
  Forall P s → Forall P (TrimLeft s cutset).
Proof.
  induction 1 as [|a s Ha Hs IH]; cbn [TrimLeft]; [done|].
  case_bool_decide; [done | by constructor].
Qed.

(** C9, as the code has it.  A line whose TEXT content is empty (a line
    without chunks among them) or white space only leaves [brackCount], [closingCh] and [brackOpenAt] as they
    were.  [isTopLevel] stays as it was when that content is empty or
    blanks and tabs only, or when a block is open; otherwise, the content
    holding other white space such as the newline of a blank line and no
    block being open, it becomes false. *)
Theorem blank_line_frame (lineNo : Z) (state : State) :
  let cs := default [] (chunks state !! lineNo) in
  TrimSpace (extractTxt cs) = [] →
  closingCh state ∈ [SPACE; RBRACE; RPAREN] →
  let l := TrimLeft (extractTxt cs) [SPACE; TAB] in
  let s' := (processLine lineNo state).2 in
  brackCount s' = brackCount state ∧ closingCh s' = closingCh state
  ∧ brackOpenAt s' = brackOpenAt state
  ∧ (l = [] ∨ brackCount state ≠ 0 → isTopLevel s' = isTopLevel state)
  ∧ (l ≠ [] → brackCount state = 0 → isTopLevel s' = false).
Proof.
  intros cs Hblank Hclosing l s'. subst s' l cs. unfold processLine.
  destruct (chunks state !! lineNo) as [cs|]; [|by split_and!].
  change (default [] (Some cs)) with cs in *. cbn [snd].
  set (l := TrimLeft (extractTxt cs) [SPACE; TAB]).
  apply TrimSpace_nil in Hblank.
  assert (Hl : Forall (λ c, isSpace c = true) l) by by apply TrimLeft_Forall.
  assert (Htrim : TrimSpace l = []) by by apply TrimSpace_nil.
  rewrite Htrim. unfold lineEnd. cbn [last].
  destruct (inferLine_frame cs state) as (_ & Htop & Hopen & Hcount & Hch & _).
  unfold lineStart. destruct l as [|l0 l'] eqn:El.
  { rewrite Htop, Hopen, Hcount, Hch. by split_and!. }
  apply TrimLeft_head in El as [Hsp Htab].
  inversion Hl as [|? ? Hl0 _]; subst.
  assert (Hne : (l0 =? closingCh (inferLine cs state))%N = false).
  { apply N.eqb_neq. rewrite Hch. intros ->.
    apply elem_of_cons in Hclosing as [Hc|Hclosing]; [done|].
    apply elem_of_cons in Hclosing as [Hc|Hclosing];
      [rewrite Hc in Hl0; by vm_compute in Hl0|].
    apply list_elem_of_singleton in Hclosing.
    rewrite Hclosing in Hl0; by vm_compute in Hl0. }
  rewrite Hne, Hcount.
  assert (Hkw : HasPrefix (l0 :: l') (str "func ")
                || HasPrefix (l0 :: l') (str "type ")
                || HasPrefix (l0 :: l') (str "import ") = false).
  { change (str "func ") with (102%N :: str "unc ").
    change (str "type ") with (116%N :: str "ype ").
    change (str "import ") with (105%N :: str "mport ").
    cbn [HasPrefix].
    destruct (N.eqb_spec l0 102) as [->|_]; [by vm_compute in Hl0|].
    destruct (N.eqb_spec l0 116) as [->|_]; [by vm_compute in Hl0|].
    destruct (N.eqb_spec l0 105) as [->|_]; [by vm_compute in Hl0|].
    done. }
  rewrite Hkw.
  destruct (Z.eqb_spec (brackCount state) 0) as [H0|H0]; cbn.
  - rewrite Hopen, Hcount, Hch. split_and!; try done. by intros [|].
  - rewrite Htop, Hopen, Hcount, Hch. by split_and!.
Qed.

Lemma blank_line_frame_witness :
  let code := str "type T int" ++ nl ++ nl in
  let state := stateAfter code 1 in
  let s' := (processLine 2 state).2 in
  brackCount s' = brackCount state ∧ closingCh s' = closingCh state
  ∧ brackOpenAt s' = brackOpenAt state
  ∧ (TrimLeft nl [SPACE; TAB] = [] ∨ brackCount state ≠ 0 →
     isTopLevel s' = isTopLevel state)
  ∧ (TrimLeft nl [SPACE; TAB] ≠ [] → brackCount state = 0 →
     isTopLevel s' = false).
Proof.
  intros code state.
  apply (blank_line_frame 2 state).
  - vm_compute. reflexivity.
  - vm_compute. apply list_elem_of_here.
Defined.

(** C9, as the specification words it, fails on the blank line after a
    one-line type declaration: [isTopLevel] is true before the blank line
    and false after it. *)
Lemma blank_line_resets_top_level :
  ¬ (∀ (lineNo : Z) (state : State),
       let cs := default [] (chunks state !! lineNo) in
       TrimSpace (extractTxt cs) = [] →
       closingCh state ∈ [SPACE; RBRACE; RPAREN] →
       let s' := (processLine lineNo state).2 in
       brackCount s' = brackCount state ∧ closingCh s' = closingCh state
       ∧ brackOpenAt s' = brackOpenAt state
       ∧ isTopLevel s' = isTopLevel state).
Proof.
  intros H.
  specialize (H 2 (stateAfter (str "type T int" ++ nl ++ nl) 1)).
  destruct H as (_ & _ & _ & H).
  - vm_compute. reflexivity.
  - vm_compute. apply list_elem_of_here.
  - vm_compute in H. discriminate H.
Qed.

(** ** Import inference *)

Lemma takeWhile_dropWhile p s : takeWhile p s ++ dropWhile p s = s.
Proof.
  induction s as [|c s IH]; cbn; [done|]. destruct (p c); cbn; by f_equal.
Qed.

(** The shape of a match of [pkgPat]: a lowercase letter, then at least one
    more word character, then the dot; and the match is the head of the
    text it was found in. *)
Lemma pkgPat_at_shape prev s m :
  pkgPat_at prev s = Some m →
  ∃ c w post, m = (c :: w) ++ [DOT] ∧ isLower c = true ∧ w ≠ []
              ∧ s = m ++ post.
Proof.
  unfold pkgPat_at. destruct s as [|c s']; [done|].
  destruct (atWordStart prev && isLower c) eqn:Hc; [|done].
  apply andb_true_iff in Hc as [_ Hc].
  pose proof (takeWhile_dropWhile isWord s') as Hs.
  destruct (takeWhile isWord s') as [|w0 w]; [done|].
  destruct (dropWhile isWord s') as [|d post]; [done|].
  destruct (N.eqb_spec d DOT) as [->|_]; [|done].
  intros [= <-]. exists c, (w0 :: w), post. split_and!; try done.
  rewrite <- Hs. cbn. by rewrite <- app_assoc.
Qed.

Lemma pkgPat_from_shape s : ∀ skip prev m,
  m ∈ pkgPat_from skip prev s →
  ∃ c w pre post, m = (c :: w) ++ [DOT] ∧ isLower c = true ∧ w ≠ []
                  ∧ s = pre ++ m ++ post.
Proof.
  induction s as [|a s IH]; intros skip prev m; cbn [pkgPat_from].
  { by intros ?%elem_of_nil. }
  assert (Hrec : ∀ k, m ∈ pkgPat_from k (Some a) s →
            ∃ c w pre post, m = (c :: w) ++ [DOT] ∧ isLower c = true ∧ w ≠ []
                            ∧ a :: s = pre ++ m ++ post).
  { intros k Hm. destruct (IH _ _ _ Hm) as (c & w & pre & post & ? & ? & ? & ->).
    by exists c, w, (a :: pre), post. }
  destruct skip as [|k]; [|apply Hrec].
  destruct (pkgPat_at prev (a :: s)) as [m'|] eqn:E; [|apply Hrec].
  intros [->|Hm]%elem_of_cons; [|by eapply Hrec].
  destruct (pkgPat_at_shape _ _ _ E) as (c & w & post & ? & ? & ? & ?).
  by exists c, w, [], post.
Qed.

Lemma inferPackages_fold (ms : list (list N)) : ∀ (pk : gmap (list N) bool) path,
  let f := λ (pk : gmap (list N) bool) (m : list N),
             match builtinPkgs !! take (length m - 1) m with
             | Some importPkg => <[importPkg := true]> pk
             | None => pk
             end in
  (foldl f pk ms !! path = Some true ∨ foldl f pk ms !! path = pk !! path)
  ∧ (pk !! path = Some true → foldl f pk ms !! path = Some true)
  ∧ (foldl f pk ms !! path ≠ pk !! path →
     ∃ m, m ∈ ms ∧ builtinPkgs !! take (length m - 1) m = Some path)
  ∧ (∀ m, m ∈ ms → builtinPkgs !! take (length m - 1) m = Some path →
     foldl f pk ms !! path = Some true).
Proof.
  induction ms as [|m ms IH]; intros pk path f; cbn [foldl].
  { split_and!; try done; [by right | by intros ? ?%elem_of_nil]. }
  destruct (IH (f pk m) path) as (H1 & H2 & H3 & H4). fold f in H1, H2, H3, H4.
  assert (Hstep : (f pk m !! path = Some true
                   ∧ builtinPkgs !! take (length m - 1) m = Some path)
                  ∨ (f pk m !! path = pk !! path
                     ∧ builtinPkgs !! take (length m - 1) m ≠ Some path)).
  { unfold f. destruct (builtinPkgs !! take (length m - 1) m) as [p|]; [|by right].
    destruct (decide (p = path)) as [->|Hne].
    - left. by rewrite lookup_insert_eq.
    - right. rewrite lookup_insert_ne by done. split; congruence. }
  split_and!.
  - destruct Hstep as [[Hs _]|[Hs _]]; [left; by apply H2|].
    by rewrite <- Hs.
  - intros Hpk. apply H2. destruct Hstep as [[Hs _]|[Hs _]]; congruence.
  - intros Hne. destruct Hstep as [[_ Hb]|[Hs _]].
    + exists m. split; [apply list_elem_of_here|done].
    + destruct H3 as (m' & ? & ?); [congruence|].
      exists m'. split; [by apply list_elem_of_further|done].
  - intros m' [->|Hm']%elem_of_cons Hb.
    + apply H2. destruct Hstep as [[Hs _]|[_ Hs]]; done.
    + by eapply H4.
Qed.

(** C10. Every match of [pkgPat] in a text is a qualifier of at least two
    characters that starts with a lowercase letter, followed by a dot, so a
    one-character qualifier with its dot is never a match; and an entry
    that [inferPackages] adds to the import set is the canonical path of
    such a matched qualifier: a one-character qualifier never adds an
    entry. *)
Theorem import_inference_needs_two_characters
    (code : list N) (pkgsToImport : gmap (list N) bool) :
  (∀ m, m ∈ pkgPat_FindAllString code →
     ∃ q pre post, m = q ++ [DOT] ∧ code = pre ++ q ++ [DOT] ++ post
                   ∧ (2 ≤ length q)%nat
                   ∧ ∃ c q', q = c :: q' ∧ isLower c = true)
  ∧ (∀ c, [c; DOT] ∉ pkgPat_FindAllString code)
  ∧ (∀ path,
       pkgsToImport !! path = None →
       inferPackages code pkgsToImport !! path ≠ None →
       ∃ q, q ++ [DOT] ∈ pkgPat_FindAllString code
            ∧ (2 ≤ length q)%nat
            ∧ builtinPkgs !! q = Some path).
Proof.
  assert (Hshape : ∀ m, m ∈ pkgPat_FindAllString code →
     ∃ q pre post, m = q ++ [DOT] ∧ code = pre ++ q ++ [DOT] ++ post
                   ∧ (2 ≤ length q)%nat
                   ∧ ∃ c q', q = c :: q' ∧ isLower c = true).
  { intros m Hm.
    destruct (pkgPat_from_shape _ _ _ _ Hm)
      as (c & w & pre & post & -> & Hc & Hw & Hcode).
    exists (c :: w), pre, post. split_and!; try done.
    - rewrite Hcode. by rewrite <- !app_assoc.
    - destruct w; [done|]. cbn. lia.
    - by exists c, w. }
  split_and!; [exact Hshape | |].
  - intros c Hm. destruct (Hshape _ Hm) as (q & _ & _ & Hq & _ & Hlen & _).
    apply (f_equal length) in Hq. rewrite length_app in Hq. cbn in Hq. lia.
  - intros path Hnone Hadded. unfold inferPackages in Hadded.
    destruct (inferPackages_fold (pkgPat_FindAllString code) pkgsToImport path)
      as (_ & _ & H3 & _).
    destruct H3 as (m & Hm & Hb); [congruence|].
    destruct (Hshape _ Hm) as (q & _ & _ & -> & _ & Hlen & _).
    rewrite length_app, Nat.add_sub, take_app_length in Hb.
    by exists q.
Qed.

Lemma import_inference_needs_two_characters_witness :
  ∃ q, q ++ [DOT] ∈ pkgPat_FindAllString (str "fmt.Println(x.y)")
       ∧ (2 ≤ length q)%nat
       ∧ builtinPkgs !! q = Some (str "fmt").
Proof.
  destruct (import_inference_needs_two_characters (str "fmt.Println(x.y)") ∅)
    as (_ & _ & H).
  apply (H (str "fmt")).
  - reflexivity.
  - vm_compute. discriminate.
Defined.

(** One-character qualifiers leave the import set alone, whatever the
    character, while the two-character [os] is found. *)
Example single_character_qualifier :
  inferPackages (str "x.Foo(a.b, p.q)") ∅ = ∅
  ∧ pkgPat_FindAllString (str "x.Foo(a.b, p.q)") = []
  ∧ inferPackages (str "os.Exit(1)") ∅ = {[ str "os" := true ]}.
Proof. split_and!; vm_compute; reflexivity. Qed.

(** ** The import set of [partition] *)

Lemma addChunk_keeps s c' ln l c :
  chunks s !! ln = Some l → c ∈ l →
  ∃ l', chunks (addChunk s c') !! ln = Some l' ∧ c ∈ l'.
Proof.
  intros Hl Hc. unfold addChunk. cbn.
  destruct (decide (lineNum s = ln)) as [->|Hne].
  - rewrite lookup_insert_eq, Hl. cbn. eexists. split; [done|].
    apply elem_of_app. by left.
  - rewrite lookup_insert_ne by done. eauto.
Qed.

Lemma addChunks_keeps cs : ∀ s ln l c,
  chunks s !! ln = Some l → c ∈ l →
  ∃ l', chunks (foldl addChunk s cs) !! ln = Some l' ∧ c ∈ l'.
Proof.
  induction cs as [|c' cs IH]; intros s ln l c Hl Hc; cbn [foldl]; [eauto|].
  destruct (addChunk_keeps s c' ln l c Hl Hc) as (l' & Hl' & Hc').
  by eapply IH.
Qed.

(** Every chunk read is filed under a line number between 1 and the final
    line count. *)
Lemma addChunks_files cs : ∀ s c,
  Forall (λ c, 0 ≤ numNL c) cs → c ∈ cs →
  ∃ ln l, chunks (foldl addChunk s cs) !! ln = Some l ∧ c ∈ l
          ∧ lineNum s ≤ ln ≤ lineNum (foldl addChunk s cs).
Proof.
  induction cs as [|c' cs IH]; intros s c Hall Hc; [by apply elem_of_nil in Hc|].
  inversion Hall as [|? ? Hc' Hcs]; subst. cbn [foldl].
  destruct (addChunks_frame cs (addChunk s c') Hcs) as (_ & _ & _ & _ & _ & Hle).
  cbn zeta in Hle.
  apply elem_of_cons in Hc as [->|Hc].
  - destruct (addChunks_keeps cs (addChunk s c') (lineNum s)
                (default [] (chunks s !! lineNum s) ++ [c']) c') as (l' & ? & ?).
    { unfold addChunk. cbn. by rewrite lookup_insert_eq. }
    { apply elem_of_app. right. apply list_elem_of_here. }
    exists (lineNum s), l'. split_and!; try done.
    cbn in Hle. lia.
  - destruct (IH (addChunk s c') c Hcs Hc) as (ln & l & ? & ? & Hln).
    exists ln, l. split_and!; try done; cbn in Hln; lia.
Qed.

Lemma inferLine_pkgs (cs : list Chunk) (path : list N) : ∀ s,
  (pkgsToImport s !! path = Some true →
   pkgsToImport (inferLine cs s) !! path = Some true)
  ∧ (∀ c m, c ∈ cs → kind c = KTEXT → m ∈ pkgPat_FindAllString (text c) →
       builtinPkgs !! take (length m - 1) m = Some path →
       pkgsToImport (inferLine cs s) !! path = Some true).
Proof.
  unfold inferLine. induction cs as [|c cs IH]; intros s; cbn [foldl].
  { split; [done|]. by intros ? ? ?%elem_of_nil. }
  set (s1 := if kind c =? KTEXT
             then set_pkgsToImport s (inferPackages (text c) (pkgsToImport s))
             else s).
  destruct (IH s1) as [Hmono Hhit].
  assert (H1 : pkgsToImport s !! path = Some true →
               pkgsToImport s1 !! path = Some true).
  { subst s1. destruct (kind c =? KTEXT); [|done]. cbn.
    apply (inferPackages_fold (pkgPat_FindAllString (text c)) (pkgsToImport s) path). }
  split; [by auto|].
  intros c0 m [->|Hc0]%elem_of_cons Hk Hm Hb; [|by eapply Hhit].
  apply Hmono. subst s1. rewrite Hk. cbn.
  by eapply (inferPackages_fold (pkgPat_FindAllString (text c)) (pkgsToImport s) path).
Qed.

Lemma processLine_pkgs lineNo s path :
  chunks (processLine lineNo s).2 = chunks s
  ∧ (pkgsToImport s !! path = Some true →
     pkgsToImport (processLine lineNo s).2 !! path = Some true)
  ∧ (∀ cs c m, chunks s !! lineNo = Some cs → c ∈ cs → kind c = KTEXT →
       m ∈ pkgPat_FindAllString (text c) →
       builtinPkgs !! take (length m - 1) m = Some path →
       pkgsToImport (processLine lineNo s).2 !! path = Some true).
Proof.
  unfold processLine. destruct (chunks s !! lineNo) as [cs|]; [|done].
  cbn [snd]. set (l := TrimLeft (extractTxt cs) [SPACE; TAB]).
  destruct (lineEnd_frame (TrimSpace l) (lineStart l (inferLine cs s)))
    as (_ & -> & -> & _).
  destruct (lineStart_frame l (inferLine cs s)) as (_ & -> & ->).
  destruct (inferLine_frame cs s) as (_ & _ & _ & _ & _ & ->).
  destruct (inferLine_pkgs cs path s) as [Hmono Hhit].
  split_and!; [done | done |].
  intros cs' c m [= <-]. apply Hhit.
Qed.

Lemma partition_lines_pkgs (ns : list Z) (path : list N) : ∀ top body s,
  let s' := (foldl partition_line (top, body, s) ns).2 in
  chunks s' = chunks s
  ∧ (pkgsToImport s !! path = Some true → pkgsToImport s' !! path = Some true)
  ∧ (∀ ln cs c m, ln ∈ ns → chunks s !! ln = Some cs → c ∈ cs →
       kind c = KTEXT → m ∈ pkgPat_FindAllString (text c) →
       builtinPkgs !! take (length m - 1) m = Some path →
       pkgsToImport s' !! path = Some true).
Proof.
  induction ns as [|n ns IH]; intros top body s; cbn [foldl].
  { split_and!; try done. by intros ? ? ? ? ?%elem_of_nil. }
  destruct (partition_line_state top body s n) as (top' & body' & ->).
  destruct (processLine_pkgs n s path) as (Hch & Hmono & Hhit).
  destruct (IH top' body' (processLine n s).2) as (Hch' & Hmono' & Hhit').
  cbn zeta in *. split_and!.
  - congruence.
  - auto.
  - intros ln cs c m [->|Hln]%elem_of_cons Hcs Hc Hk Hm Hb.
    + apply Hmono'. by eapply Hhit.
    + eapply Hhit'; try done. by rewrite Hch.
Qed.

(** Whenever a TEXT chunk of the input holds a qualifier of the table,
    once or many times, on one line or on several, the import set that
    [partition] returns holds the path of that qualifier. *)
Lemma partition_imports_matched
    (code topLevel nonTopLevel : list N) (imports : gmap (list N) bool)
    (q path : list N) :
  partition code = Returns (topLevel, nonTopLevel, imports) →
  q ∈ qualifiersOf code →
  builtinPkgs !! q = Some path →
  imports !! path = Some true.
Proof.
  intros Hpart Hq Hb.
  unfold qualifiersOf in Hq.
  apply list_elem_of_In, in_concat in Hq as (ms & Hms & Hq).
  apply in_map_iff in Hms as (c & <- & Hc).
  apply list_elem_of_In in Hc.
  destruct (Z.eqb_spec (kind c) KTEXT) as [Hk|_]; [|done].
  apply in_map_iff in Hq as (m & <- & Hm). apply list_elem_of_In in Hm.
  (* the chunk is filed under a line that the second loop visits *)
  destruct (addChunks_files (chunksOf code).1 initState c (chunksOf_numNL code) Hc)
    as (ln & l & Hl & Hcl & Hln).
  rewrite <- scanned_eq in Hl, Hln. cbn [initState lineNum] in Hln.
  unfold partition in Hpart. fold (scanned code) in Hpart.
  assert (Hsc : chunk_loop addChunk (S (length code)) (NewScanner code) initState
                = (scanned code, (chunksOf code).2)).
  { unfold scanned, chunksOf. by rewrite chunk_loop_foldl. }
  rewrite Hsc in Hpart. destruct (chunksOf code).2 as [[]| |]; [|done|done].
  unfold partition_lines in Hpart.
  destruct (partition_lines_pkgs (seqZ 1 (lineNum (scanned code))) path [] []
              (scanned code)) as (_ & _ & Hhit).
  cbn zeta in Hhit.
  destruct (foldl partition_line ([], [], scanned code)
              (seqZ 1 (lineNum (scanned code)))) as [[top body] st].
  cbn [snd] in Hhit. destruct (0 <? brackCount st); [done|].
  injection Hpart as _ _ <-.
  apply (Hhit ln l c m); try done.
  apply elem_of_seqZ. lia.
Qed.

(** C8. Two lines that call os.Exit give an import set with the one entry
    for os.  Behind a block comment that ends in two stars and a slash the
    same two lines give an empty import set: [readMultilineComment] has
    read the second star together with the first, so it does not see the
    end of the comment, reads on to the end of the input, and the whole
    input is one COMMENT chunk, which import inference does not look at. *)
Theorem import_inference_after_banner :
  let refs := str "os.Exit(1)" ++ nl ++ str "os.Exit(2)" ++ nl in
  let code := str "/** banner **/" ++ nl ++ refs in
  partition refs
  = Returns ([],
             str "//line :1" ++ nl ++ str "os.Exit(1)" ++ nl
             ++ str "//line :2" ++ nl ++ str "os.Exit(2)" ++ nl
             ++ str "//line :3" ++ nl,
             {[ str "os" := true ]})
  ∧ chunksOf code
    = ([{| kind := KCOMMENT; text := code; numNL := 3 |}], Returns ())
  ∧ partition code
    = Returns ([],
               str "//line :1" ++ nl ++ code
               ++ str "//line :2" ++ nl ++ str "//line :3" ++ nl
               ++ str "//line :4" ++ nl,
               ∅).
Proof. split_and!; vm_compute; reflexivity. Qed.

(** ** The compile-and-repair loop *)

Lemma repair_step_inv (m0 : gmap (list N) bool) acc mt :
  (∀ k, acc.2 !! k = m0 !! k ∨ acc.2 !! k = None) →
  (acc.1.1 = true ↔ importRemoved m0 acc.2) →
  (∀ k, (repair_step acc mt).2 !! k = m0 !! k ∨ (repair_step acc mt).2 !! k = None)
  ∧ ((repair_step acc mt).1.1 = true ↔ importRemoved m0 (repair_step acc mt).2).
Proof.
  destruct acc as [[d pkg] m]. cbn [fst snd]. intros Hsub Hd.
  unfold repair_step.
  set (pkg' := match mt.1, mt.2 with
               | _ :: _, _ => mt.1 | [], _ :: _ => mt.2 | [], [] => pkg end).
  destruct (m !! pkg') as [[]|] eqn:E; cbn; try done.
  split.
  - intros k. destruct (decide (k = pkg')) as [->|Hne].
    + right. apply lookup_delete_eq.
    + rewrite lookup_delete_ne by done. apply Hsub.
  - split; [intros _|done]. exists pkg'. split; [|apply lookup_delete_eq].
    destruct (Hsub pkg') as [H|H]; congruence.
Qed.

Lemma repair_fold_inv (m0 : gmap (list N) bool) ms : ∀ acc,
  (∀ k, acc.2 !! k = m0 !! k ∨ acc.2 !! k = None) →
  (acc.1.1 = true ↔ importRemoved m0 acc.2) →
  (foldl repair_step acc ms).1.1 = true
  ↔ importRemoved m0 (foldl repair_step acc ms).2.
Proof.
  induction ms as [|mt ms IH]; intros acc Hsub Hd; cbn [foldl]; [done|].
  destruct (repair_step_inv m0 acc mt Hsub Hd). by apply IH.
Qed.

(** [repairImports] reports a repair exactly when it has removed an
    import. *)
Lemma repairImports_removed err pkgsToImport :
  (repairImports err pkgsToImport).1 = true
  ↔ importRemoved pkgsToImport (repairImports err pkgsToImport).2.
Proof.
  unfold repairImports.
  pose proof (repair_fold_inv pkgsToImport (repair_matches 0 err)
                (false, [], pkgsToImport)) as H.
  destruct (foldl repair_step (false, [], pkgsToImport) (repair_matches 0 err))
    as [[d pkg] m]. cbn [fst snd] in *. apply H.
  - by left.
  - split; [done|]. intros (k & Hk & Hn). congruence.
Qed.

(** C6. [buildAndExec] hands one or two sources to [run], never more; it
    hands over a second one exactly when the first run came back with an
    error and [repairImports] removed at least one import on that error. *)
Theorem compile_attempts_bounded (World : Type)
    (run : list N → World → list N * list N * World)
    (topLevel nonTopLevel : list N) (pkgsToImport : gmap (list N) bool)
    (w : World) :
  let imports := <[str "fmt" := true]> pkgsToImport in
  let first := run (buildMain topLevel nonTopLevel imports) w in
  let r := buildAndExec World run topLevel nonTopLevel pkgsToImport w in
  (1 ≤ length (compiled r) ≤ 2)%nat
  ∧ (length (compiled r) = 2%nat
     ↔ first.1.2 ≠ [] ∧ importRemoved imports (repairImports first.1.2 imports).2).
Proof.
  intros imports first r. subst r. unfold buildAndExec. fold imports.
  fold first. destruct first as [[out1 err1] w1]. cbn [fst snd].
  destruct err1 as [|e err1].
  { cbn. split; [lia|]. split; [lia | by intros [? _]]. }
  pose proof (repairImports_removed (e :: err1) imports) as Hrep.
  destruct (repairImports (e :: err1) imports) as [[] imports'];
    cbn [fst snd] in Hrep.
  - destruct (run (buildMain topLevel nonTopLevel imports') w1) as [[out2 err2] w2].
    cbn. split; [lia|]. split; [intros _|done]. split; [done|by apply Hrep].
  - cbn. split; [lia|]. split; [lia|]. intros [_ H]. by apply Hrep in H.
Qed.

Lemma compile_attempts_bounded_witness :
  let r := buildAndExec nat failOnce [] (str "import " ++ dq ++ str "fmt" ++ dq ++ nl) ∅ 0%nat in
  (1 ≤ length (compiled r) ≤ 2)%nat ∧ length (compiled r) = 2%nat
  ∧ err r = [] ∧ world r = 2%nat.
Proof.
  intros r.
  destruct (compile_attempts_bounded nat failOnce []
              (str "import " ++ dq ++ str "fmt" ++ dq ++ nl) ∅ 0%nat) as [Hb Hiff].
  split; [exact Hb|]. split_and!; vm_compute; reflexivity.
Defined.

(** A failure whose diagnostics name no import is final after one run. *)
Example one_attempt_without_repair :
  let r := buildAndExec nat failAlways [] (str "x") ∅ 0%nat in
  length (compiled r) = 1%nat ∧ err r = str "gore_eval.go:9: undefined: x" ++ nl
  ∧ world r = 1%nat.
Proof. vm_compute. by split_and!. Qed.

(** ** Fatal errors of [Eval] *)

Lemma partition_panics code p :
  (chunksOf code).2 = Panics p → partition code = Panics p.
Proof.
  intros H. unfold partition. rewrite chunk_loop_foldl.
  unfold chunksOf in H. by rewrite H.
Qed.

(** The loop of [readString] over [n] runes that are neither the closing
    quote, nor a backslash, nor a newline, and the newline after them. *)
Lemma readString_loop_newline inp mark endCh n : ∀ p fuel,
  (∀ i, (i < n)%nat →
     ∃ c, inp !! (p + i)%nat = Some c ∧ c ≠ endCh ∧ c ≠ BACKSLASH ∧ c ≠ NL) →
  inp !! (p + n)%nat = Some NL → endCh ≠ NL → (n < fuel)%nat →
  readString_loop fuel mark {| input := inp; pos := p |} endCh
  = Panics (NewlineInString (Z.of_nat (S (p + n)))).
Proof.
  induction n as [|n IH]; intros p fuel Hbody Hnl Hend Hf;
    (destruct fuel as [|fuel]; [lia|]); cbn [readString_loop].
  - rewrite Nat.add_0_r in *.
    rewrite (ReadRune_lookup _ NL) by done. cbn [notNil].
    destruct (N.eqb_spec NL endCh) as [?|_]; [congruence|]. done.
  - destruct (Hbody 0%nat) as (c & Hc & Hne & Hbs & Hcnl); [lia|].
    rewrite Nat.add_0_r in Hc.
    rewrite (ReadRune_lookup _ c) by done. cbn [notNil input pos].
    destruct (N.eqb_spec c endCh) as [?|_]; [done|].
    destruct (N.eqb_spec c BACKSLASH) as [?|_]; [done|].
    destruct (N.eqb_spec c NL) as [?|_]; [done|].
    rewrite (IH (S p) fuel); try done.
    + do 3 f_equal. lia.
    + intros i Hi. destruct (Hbody (S i)) as (c' & Hc' & ?); [lia|].
      exists c'. split; [|done]. rewrite <- Hc'. f_equal. lia.
    + rewrite <- Hnl. f_equal. lia.
    + lia.
Qed.

(** What a raw newline inside a quoted literal is for the chunker: at a
    quote that is followed, before any closing quote or backslash, by a
    newline, [nextChunk] panics. *)
Lemma quoted_literal_newline_panics (pre body rest : list N) (q : N) :
  q = DQUOTE ∨ q = SQUOTE →
  q ∉ body → BACKSLASH ∉ body → NL ∉ body →
  nextChunk {| input := pre ++ q :: body ++ NL :: rest; pos := length pre |}
  = Panics (NewlineInString (Z.of_nat (length pre + length body + 2))).
Proof.
  intros Hq Hqb Hbs Hnl.
  set (code := pre ++ q :: body ++ NL :: rest).
  assert (H0 : code !! length pre = Some q).
  { subst code. by rewrite list_lookup_middle. }
  assert (Hb : ∀ i, (i < length body)%nat →
            ∃ c, code !! (S (length pre) + i)%nat = Some c
                 ∧ c ≠ q ∧ c ≠ BACKSLASH ∧ c ≠ NL).
  { intros i Hi. destruct (lookup_lt_is_Some_2 body i Hi) as [c Hc].
    exists c. split.
    - subst code. rewrite lookup_app_r by lia.
      replace (S (length pre) + i - length pre)%nat with (S i) by lia.
      rewrite lookup_cons_ne_0 by lia. cbn [Nat.pred].
      by rewrite lookup_app_l.
    - apply list_elem_of_lookup_2 in Hc. split_and!; by intros ->. }
  assert (H2 : code !! (S (length pre) + length body)%nat = Some NL).
  { subst code. rewrite lookup_app_r by lia.
    replace (S (length pre) + length body - length pre)%nat
      with (S (length body)) by lia.
    rewrite lookup_cons_ne_0 by lia. cbn [Nat.pred].
    by rewrite list_lookup_middle. }
  assert (Hlen : (length pre + length body + 2 ≤ length code)%nat).
  { subst code. rewrite length_app. cbn [length]. rewrite length_app.
    cbn [length]. lia. }
  clearbody code.
  unfold nextChunk, Mark, Len. cbn [input pos].
  rewrite (ReadRune_lookup _ q) by done. cbn [notNil input pos].
  assert (Hcase : (q =? SLASH)%N = false ∧ (q =? DQUOTE)%N || (q =? SQUOTE)%N = true).
  { by destruct Hq as [-> | ->]. }
  destruct Hcase as [-> ->]. unfold readString.
  rewrite (readString_loop_newline code _ q (length body)); try done.
  - do 3 f_equal. lia.
  - by destruct Hq as [-> | ->].
  - unfold Len. cbn [input pos]. lia.
Qed.

(** C5. A literal with a newline between its quotes is reported by [Eval]
    before anything is compiled when it stands alone.  Behind a block
    comment that ends in two stars and a slash the same literal is not
    reported: [readMultilineComment] has read the second star together
    with the first, so it does not see the end of the comment, the whole
    input is one COMMENT chunk, [readString] is never called, and [Eval]
    hands the assembled program to [run]. *)
Theorem newline_in_literal_after_banner (World : Type)
    (run : list N → World → list N * list N * World) (w : World) :
  let lit := str "s := " ++ dq ++ str "a" ++ nl ++ str "b" ++ dq ++ nl in
  let code := str "/** banner **/" ++ nl ++ lit in
  let body := str "//line :1" ++ nl ++ code
              ++ str "//line :2" ++ nl ++ str "//line :3" ++ nl
              ++ str "//line :4" ++ nl in
  Eval World run lit w
  = Returns {| out := [];
               err := str "1:Newline in string @ " ++ runeToString 8;
               compiled := []; world := w |}
  ∧ hasPackageDecl code = false
  ∧ chunksOf (expandAliases code)
    = ([{| kind := KCOMMENT; text := code; numNL := 3 |}], Returns ())
  ∧ Eval World run code w = Returns (buildAndExec World run [] body ∅ w)
  ∧ head (compiled (buildAndExec World run [] body ∅ w))
    = Some (buildMain [] body {[ str "fmt" := true ]}).
Proof.
  intros lit code body.
  assert (Hpart : partition (expandAliases code)
                  = Returns ([], body, (∅ : gmap (list N) bool)))
    by (vm_compute; reflexivity).
  split_and!; [vm_compute; reflexivity .. | | ].
  - unfold Eval.
    replace (hasPackageDecl code) with false by (vm_compute; reflexivity).
    by rewrite Hpart.
  - unfold buildAndExec.
    replace (<[str "fmt" := true]> (∅ : gmap (list N) bool))
      with ({[ str "fmt" := true ]} : gmap (list N) bool)
      by (vm_compute; reflexivity).
    destruct (run _ w) as [[out1 err1] w1]. destruct err1 as [|e err1]; [done|].
    destruct (repairImports _ _) as [[] imports']; [|done].
    by destruct (run _ w1) as [[out2 err2] w2].
Qed.

(** The same error is lost in a second way.  In this input the literal
    holds an escaped newline and then a raw one, so that chunking the input
    panics; but the raw newline starts the white space that the alias
    pattern matches before [p x], alias expansion removes it, and [Eval]
    goes on to compile. *)
Example newline_in_literal_removed_by_alias :
  let code := dq ++ bsl ++ nl ++ nl ++ str "p x" ++ dq in
  hasPackageDecl code = false
  ∧ (chunksOf code).2 = Panics (NewlineInString 4)
  ∧ expandAliases code = dq ++ bsl ++ nl ++ str "__p(x" ++ dq ++ str ")"
  ∧ ∃ r, Eval nat failAlways code 0%nat = Returns r ∧ length (compiled r) = 1%nat.
Proof.
  split_and!; try (vm_compute; reflexivity).
  eexists. split; [vm_compute; reflexivity | reflexivity].
Qed.

(** * Further properties of the code *)

(** ** Chunks read off the text *)

(** [body] is what the input holds from offset [p] on. *)
Definition at_offset (inp : list N) (p : nat) (body : list N) : Prop :=
  ∀ i c, body !! i = Some c → inp !! (p + i)%nat = Some c.

Lemma at_offset_cons inp p c body :
  at_offset inp p (c :: body) → inp !! p = Some c ∧ at_offset inp (S p) body.
Proof.
  intros H. split.
  - specialize (H 0%nat c eq_refl). by rewrite Nat.add_0_r in H.
  - intros i c' Hc'. specialize (H (S i) c' Hc').
    by replace (S p + i)%nat with (p + S i)%nat by lia.
Qed.

Lemma at_offset_app inp p a b :
  at_offset inp p (a ++ b) →
  at_offset inp p a ∧ at_offset inp (p + length a) b.
Proof.
  intros H. split.
  - intros i c Hc. apply H. by apply lookup_app_l_Some.
  - intros i c Hc. rewrite <- Nat.add_assoc. apply H.
    rewrite lookup_app_r by lia. by rewrite Nat.add_comm, Nat.add_sub.
Qed.

Lemma at_offset_embedded (pre X rest : list N) :
  at_offset (pre ++ X ++ rest) (length pre) X.
Proof.
  intros i c Hc. rewrite lookup_app_r by lia.
  rewrite Nat.add_comm, Nat.add_sub. by apply lookup_app_l_Some.
Qed.

Lemma at_offset_slice inp p X :
  at_offset inp p X → take (length X) (drop p inp) = X.
Proof.
  intros H. apply list_eq. intros i.
  destruct (decide (i < length X)%nat) as [Hi|Hi].
  - rewrite lookup_take_lt by done. rewrite lookup_drop.
    destruct (lookup_lt_is_Some_2 X i Hi) as [c Hc]. rewrite Hc. by apply H.
  - rewrite lookup_take_ge by lia. symmetry. apply lookup_ge_None. lia.
Qed.

(** The chunk that [mkChunk] cuts when the read head stands at the end of
    [X], which the input holds from the mark on. *)
Lemma mkChunk_embedded (s : Scanner) (start : nat) (X : list N) k n :
  at_offset (input s) start X → pos s = (start + length X)%nat →
  (start ≤ length (input s))%nat →
  mkChunk (length (input s) - start) s k n None
  = ({| kind := k; text := X; numNL := n |}, None, s).
Proof.
  intros HX Hp Hs. unfold mkChunk, Slice.
  replace (length (input s) - (length (input s) - start))%nat with start by lia.
  rewrite Hp, Nat.add_comm, Nat.add_sub, (at_offset_slice _ _ _ HX).
  cbn [isEOF]. by rewrite andb_false_r.
Qed.

Lemma newlines_cons c s :
  newlines (c :: s) = (if (c =? NL)%N then 1 else 0) + newlines s.
Proof.
  unfold newlines. rewrite filter_cons.
  destruct (N.eqb_spec c NL) as [->|Hne].
  - rewrite decide_True by done. cbn [length]. lia.
  - rewrite decide_False by done. lia.
Qed.

Lemma newlines_app a b : newlines (a ++ b) = newlines a + newlines b.
Proof.
  unfold newlines. rewrite filter_app, length_app. lia.
Qed.

(** The loop of [readMultilineString] steps over runes other than a
    backtick and counts their newlines. *)
Lemma readMultilineString_loop_skip inp mark body : ∀ p fuel n,
  at_offset inp p body → BACKTICK ∉ body → (length body ≤ fuel)%nat →
  readMultilineString_loop fuel n mark {| input := inp; pos := p |}
  = readMultilineString_loop (fuel - length body) (n + newlines body) mark
      {| input := inp; pos := (p + length body)%nat |}.
Proof.
  induction body as [|c body IH]; intros p fuel n Hat Hbt Hf.
  { cbn [length]. rewrite Nat.sub_0_r, Nat.add_0_r.
    unfold newlines. cbn. by rewrite Z.add_0_r. }
  apply at_offset_cons in Hat as [Hc Hat].
  apply not_elem_of_cons in Hbt as [Hne Hbt].
  destruct fuel as [|fuel]; [cbn in Hf; lia|].
  cbn [readMultilineString_loop].
  rewrite (ReadRune_lookup _ c) by done. cbn [notNil input pos].
  destruct (N.eqb_spec c BACKTICK) as [?|_]; [done|].
  rewrite newlines_cons. cbn [length].
  replace (p + S (length body))%nat with (S p + length body)%nat by lia.
  replace (S fuel - S (length body))%nat with (fuel - length body)%nat by lia.
  cbn [length] in Hf.
  destruct (c =? NL)%N; rewrite (IH (S p) fuel) by (done || lia);
    f_equal; lia.
Qed.

(** X3. A raw literal that is closed is one STRING chunk, from its
    opening to its closing backtick, and its line-break count is the number
    of newlines between them. *)
Theorem raw_literal_chunk (pre body rest : list N) :
  BACKTICK ∉ body →
  let code := pre ++ (BACKTICK :: body ++ [BACKTICK]) ++ rest in
  nextChunk {| input := code; pos := length pre |}
  = Returns ({| kind := KSTRING; text := BACKTICK :: body ++ [BACKTICK];
                numNL := newlines body |},
             None,
             {| input := code; pos := (length pre + (length body + 2))%nat |}).
Proof.
  intros Hbt code.
  pose proof (at_offset_embedded pre (BACKTICK :: body ++ [BACKTICK]) rest) as Hat.
  fold code in Hat.
  assert (Hlen : (length pre + (length body + 2) ≤ length code)%nat).
  { subst code. rewrite !length_app. cbn [length]. rewrite length_app.
    cbn [length]. lia. }
  clearbody code.
  pose proof Hat as Hat0.
  apply at_offset_cons in Hat0 as [H0 Hat1].
  apply at_offset_app in Hat1 as [Hbody Hclose].
  apply at_offset_cons in Hclose as [Hclose _].
  unfold nextChunk, Mark, Len. cbn [input pos].
  rewrite (ReadRune_lookup _ BACKTICK) by done. cbn [notNil input pos].
  change (BACKTICK =? SLASH)%N with false.
  change ((BACKTICK =? DQUOTE)%N || (BACKTICK =? SQUOTE)%N) with false.
  change (BACKTICK =? BACKTICK)%N with true. cbn iota.
  unfold readMultilineString, Len. cbn [input pos].
  rewrite (readMultilineString_loop_skip code _ body) by (done || lia).
  destruct (S (length code - S (length pre)) - length body)%nat
    as [|fuel] eqn:Hfuel; [lia|].
  cbn [readMultilineString_loop].
  rewrite (ReadRune_lookup _ BACKTICK) by done. cbn [notNil input pos].
  change (BACKTICK =? BACKTICK)%N with true. cbn iota.
  rewrite Z.add_0_l.
  replace (S (S (length pre) + length body)) with (length pre + (length body + 2))%nat by lia.
  apply f_equal.
  apply (mkChunk_embedded
           {| input := code; pos := (length pre + (length body + 2))%nat |}
           (length pre) (BACKTICK :: body ++ [BACKTICK])); cbn [input pos].
  - done.
  - cbn [length]. rewrite length_app. cbn [length]. lia.
  - lia.
Qed.

Lemma raw_literal_chunk_witness :
  let code := str "s := `a" ++ nl ++ str "b" ++ nl ++ str "c` + x" in
  nextChunk {| input := code; pos := 5 |}
  = Returns ({| kind := KSTRING;
                text := str "`a" ++ nl ++ str "b" ++ nl ++ str "c`";
                numNL := 2 |},
             None, {| input := code; pos := 12 |}).
Proof.
  apply (raw_literal_chunk (str "s := ") (str "a" ++ nl ++ str "b" ++ nl ++ str "c")
           (str " + x")).
  vm_compute. intros H.
  by repeat (inversion H as [|? ? ? H']; clear H; rename H' into H).
Defined.

(** The loop of [readString] steps over plain runes and escaped pairs. *)
Lemma readString_loop_skip inp mark q items : ∀ p fuel,
  at_offset inp p (litText items) → Forall (plainFor q) items →
  q ≠ BACKSLASH → (length items ≤ fuel)%nat →
  readString_loop fuel mark {| input := inp; pos := p |} q
  = readString_loop (fuel - length items) mark
      {| input := inp; pos := (p + length (litText items))%nat |} q.
Proof.
  induction items as [|it items IH]; intros p fuel Hat Hpl Hq Hf.
  { cbn. by rewrite Nat.sub_0_r, Nat.add_0_r. }
  inversion Hpl as [|? ? Hit Hpl']; subst.
  destruct fuel as [|fuel]; [cbn in Hf; lia|]. cbn [length] in Hf.
  change (litText (it :: items))
    with (match it with Plain c => [c] | Escaped c => [BACKSLASH; c] end
          ++ litText items) in *.
  cbn [readString_loop length]. rewrite Nat.sub_succ.
  destruct it as [c|c]; cbn [app length] in *.
  - apply at_offset_cons in Hat as [Hc Hat]. destruct Hit as (H1 & H2 & H3).
    rewrite (ReadRune_lookup _ c) by done. cbn [notNil input pos].
    destruct (N.eqb_spec c q) as [?|_]; [done|].
    destruct (N.eqb_spec c BACKSLASH) as [?|_]; [done|].
    destruct (N.eqb_spec c NL) as [?|_]; [done|].
    rewrite (IH (S p) fuel) by (done || lia). do 2 f_equal. lia.
  - apply at_offset_cons in Hat as [Hb Hat].
    apply at_offset_cons in Hat as [Hc Hat].
    rewrite (ReadRune_lookup _ BACKSLASH) by done. cbn [notNil input pos].
    destruct (N.eqb_spec BACKSLASH q) as [?|_]; [congruence|].
    change (BACKSLASH =? BACKSLASH)%N with true. cbn iota.
    rewrite (ReadRune_lookup _ c) by done. cbn [input pos].
    rewrite (IH (S (S p)) fuel) by (done || lia). do 2 f_equal. lia.
Qed.

(** X4. A quoted literal that is closed on its line is one STRING chunk
    from quote to quote with a line-break count of 0.  A backslash takes
    the rune after it along, whatever it is, so that an escaped quote does
    not end the literal. *)
Theorem quoted_literal_chunk (pre rest : list N) (items : list litItem) (q : N) :
  q = DQUOTE ∨ q = SQUOTE →
  Forall (plainFor q) items →
  let lit := q :: litText items ++ [q] in
  let code := pre ++ lit ++ rest in
  nextChunk {| input := code; pos := length pre |}
  = Returns ({| kind := KSTRING; text := lit; numNL := 0 |}, None,
             {| input := code; pos := (length pre + length lit)%nat |}).
Proof.
  intros Hq Hpl lit code.
  pose proof (at_offset_embedded pre lit rest) as Hat. fold code in Hat.
  assert (Hlit : length lit = (length (litText items) + 2)%nat).
  { subst lit. cbn [length]. rewrite length_app. cbn [length]. lia. }
  assert (Hlen : (length pre + length lit ≤ length code)%nat).
  { subst code. rewrite !length_app. lia. }
  assert (Hitems : (length items ≤ length (litText items))%nat).
  { clear. induction items as [|it items IH]; [done|].
    change (litText (it :: items))
      with (match it with Plain c => [c] | Escaped c => [BACKSLASH; c] end
            ++ litText items).
    rewrite length_app. destruct it; cbn [length]; lia. }
  assert (Hqb : q ≠ BACKSLASH) by (by destruct Hq as [-> | ->]).
  clearbody code.
  pose proof Hat as Hat0. subst lit.
  apply at_offset_cons in Hat0 as [H0 Hat1].
  apply at_offset_app in Hat1 as [Hbody Hclose].
  apply at_offset_cons in Hclose as [Hclose _].
  unfold nextChunk, Mark, Len. cbn [input pos].
  rewrite (ReadRune_lookup _ q) by done. cbn [notNil input pos].
  assert (Hcase : (q =? SLASH)%N = false
                  ∧ (q =? DQUOTE)%N || (q =? SQUOTE)%N = true).
  { by destruct Hq as [-> | ->]. }
  destruct Hcase as [-> ->].
  unfold readString, Len. cbn [input pos].
  rewrite (readString_loop_skip code _ q items) by (done || lia).
  destruct (S (length code - S (length pre)) - length items)%nat
    as [|fuel] eqn:Hfuel; [lia|].
  cbn [readString_loop].
  rewrite (ReadRune_lookup _ q) by done. cbn [notNil input pos].
  rewrite N.eqb_refl. apply f_equal.
  replace (S (S (length pre) + length (litText items)))
    with (length pre + length (q :: litText items ++ [q]))%nat by lia.
  apply (mkChunk_embedded
           {| input := code;
              pos := (length pre + length (q :: litText items ++ [q]))%nat |}
           (length pre) (q :: litText items ++ [q])); cbn [input pos];
    [done | done | lia].
Qed.

Lemma quoted_literal_chunk_witness :
  let lit := dq ++ str "a" ++ bsl ++ dq ++ str "b" ++ dq in
  let code := str "p(" ++ lit ++ str ")" in
  nextChunk {| input := code; pos := 2 |}
  = Returns ({| kind := KSTRING; text := lit; numNL := 0 |}, None,
             {| input := code; pos := 8 |}).
Proof.
  apply (quoted_literal_chunk (str "p(") (str ")")
           [Plain 97%N; Escaped DQUOTE; Plain 98%N] DQUOTE).
  - by left.
  - repeat constructor; done.
Defined.

(** The loop of [readMultilineComment] steps over runes other than a star
    and counts their newlines. *)
Lemma readMultilineComment_loop_skip inp mark body : ∀ p fuel n,
  at_offset inp p body → STAR ∉ body → (length body ≤ fuel)%nat →
  readMultilineComment_loop fuel n mark {| input := inp; pos := p |}
  = readMultilineComment_loop (fuel - length body) (n + newlines body) mark
      {| input := inp; pos := (p + length body)%nat |}.
Proof.
  induction body as [|c body IH]; intros p fuel n Hat Hst Hf.
  { cbn [length]. rewrite Nat.sub_0_r, Nat.add_0_r.
    unfold newlines. cbn. by rewrite Z.add_0_r. }
  apply at_offset_cons in Hat as [Hc Hat].
  apply not_elem_of_cons in Hst as [Hne Hst].
  destruct fuel as [|fuel]; [cbn in Hf; lia|].
  cbn [readMultilineComment_loop].
  rewrite (ReadRune_lookup _ c) by done. cbn [notNil input pos].
  destruct (N.eqb_spec c STAR) as [?|_]; [done|].
  rewrite newlines_cons. cbn [length].
  replace (p + S (length body))%nat with (S p + length body)%nat by lia.
  replace (S fuel - S (length body))%nat with (fuel - length body)%nat by lia.
  cbn [length] in Hf.
  destruct (c =? NL)%N; rewrite (IH (S p) fuel) by (done || lia);
    f_equal; lia.
Qed.

(** X5. A block comment without a star inside is one COMMENT chunk from
    its opening to its closing mark, and its line-break count is the number
    of newlines in between. *)
Theorem block_comment_chunk (pre body rest : list N) :
  STAR ∉ body →
  let com := [SLASH; STAR] ++ body ++ [STAR; SLASH] in
  let code := pre ++ com ++ rest in
  nextChunk {| input := code; pos := length pre |}
  = Returns ({| kind := KCOMMENT; text := com; numNL := newlines body |}, None,
             {| input := code; pos := (length pre + length com)%nat |}).
Proof.
  intros Hst com code.
  pose proof (at_offset_embedded pre com rest) as Hat. fold code in Hat.
  assert (Hcom : length com = (length body + 4)%nat).
  { subst com. cbn [app length]. rewrite length_app. cbn [length]. lia. }
  assert (Hlen : (length pre + length com ≤ length code)%nat).
  { subst code. rewrite !length_app. lia. }
  clearbody code.
  pose proof Hat as Hat0. subst com. cbn [app] in Hat0.
  apply at_offset_cons in Hat0 as [H0 Hat1].
  apply at_offset_cons in Hat1 as [H1 Hat2].
  apply at_offset_app in Hat2 as [Hbody Hclose].
  apply at_offset_cons in Hclose as [Hstar Hclose].
  apply at_offset_cons in Hclose as [Hslash _].
  unfold nextChunk, Mark, Len. cbn [input pos].
  rewrite (ReadRune_lookup _ SLASH) by done. cbn [notNil input pos].
  change (SLASH =? SLASH)%N with true. cbn iota.
  rewrite (ReadRune_lookup _ STAR) by done. cbn [notNil input pos].
  change (STAR =? SLASH)%N with false. change (STAR =? STAR)%N with true.
  cbn iota.
  unfold readMultilineComment, Len. cbn [input pos].
  rewrite (readMultilineComment_loop_skip code _ body) by (done || lia).
  destruct (S (length code - S (S (length pre))) - length body)%nat
    as [|fuel] eqn:Hfuel; [lia|].
  cbn [readMultilineComment_loop].
  rewrite (ReadRune_lookup _ STAR) by done. cbn [notNil input pos].
  change (STAR =? STAR)%N with true. cbn iota.
  rewrite (ReadRune_lookup _ SLASH) by done. cbn [notNil input pos].
  change (SLASH =? SLASH)%N with true. cbn iota.
  rewrite Z.add_0_l. apply f_equal.
  replace (S (S (S (S (length pre)) + length body)))
    with (length pre + length ([SLASH; STAR] ++ body ++ [STAR; SLASH]))%nat by lia.
  apply (mkChunk_embedded
           {| input := code;
              pos := (length pre + length ([SLASH; STAR] ++ body ++ [STAR; SLASH]))%nat |}
           (length pre) ([SLASH; STAR] ++ body ++ [STAR; SLASH])); cbn [input pos];
    [done | done | lia].
Qed.

Lemma block_comment_chunk_witness :
  let com := str "/" ++ [STAR] ++ str " a" ++ nl ++ str " b " ++ [STAR] ++ str "/" in
  let code := str "x " ++ com ++ str " y" in
  nextChunk {| input := code; pos := 2 |}
  = Returns ({| kind := KCOMMENT; text := com; numNL := 1 |}, None,
             {| input := code; pos := 12 |}).
Proof.
  apply (block_comment_chunk (str "x ") (str " a" ++ nl ++ str " b ") (str " y")).
  vm_compute. intros H.
  by repeat (inversion H as [|? ? ? H']; clear H; rename H' into H).
Defined.

(** The loop of [readText] steps over plain runes. *)
Lemma readText_loop_skip inp mark body : ∀ p fuel,
  at_offset inp p body → Forall plainText body → (length body ≤ fuel)%nat →
  readText_loop fuel mark {| input := inp; pos := p |}
  = readText_loop (fuel - length body) mark
      {| input := inp; pos := (p + length body)%nat |}.
Proof.
  induction body as [|c body IH]; intros p fuel Hat Hpl Hf.
  { cbn [length]. by rewrite Nat.sub_0_r, Nat.add_0_r. }
  apply at_offset_cons in Hat as [Hc Hat].
  inversion Hpl as [|? ? (H1 & H2 & H3 & H4 & H5) Hpl']; subst.
  destruct fuel as [|fuel]; [cbn in Hf; lia|]. cbn [length] in Hf.
  cbn [readText_loop].
  rewrite (ReadRune_lookup _ c) by done. cbn [notNil input pos].
  destruct (N.eqb_spec c SLASH) as [?|_]; [done|].
  destruct (N.eqb_spec c BACKTICK) as [?|_]; [done|].
  destruct (N.eqb_spec c DQUOTE) as [?|_]; [done|].
  destruct (N.eqb_spec c SQUOTE) as [?|_]; [done|].
  destruct (N.eqb_spec c NL) as [?|_]; [done|]. cbn [orb].
  rewrite (IH (S p) fuel) by (done || lia). cbn [length].
  do 2 f_equal. lia.
Qed.

(** [nextChunk] on a plain rune goes into [readText]. *)
Lemma nextChunk_plain inp p c :
  inp !! p = Some c → plainText c →
  nextChunk {| input := inp; pos := p |}
  = readText_loop (S (length inp - S p)) (length inp - p)
      {| input := inp; pos := S p |}.
Proof.
  intros Hc (H1 & H2 & H3 & H4 & H5).
  unfold nextChunk, Mark, Len. cbn [input pos].
  rewrite (ReadRune_lookup _ c) by done. cbn [notNil input pos].
  destruct (N.eqb_spec c SLASH) as [?|_]; [done|].
  destruct (N.eqb_spec c BACKTICK) as [?|_]; [done|].
  destruct (N.eqb_spec c DQUOTE) as [?|_]; [done|].
  destruct (N.eqb_spec c SQUOTE) as [?|_]; [done|].
  destruct (N.eqb_spec c NL) as [?|_]; [done|]. done.
Qed.

(** X6. Plain text up to the end of its line is one TEXT chunk that takes
    the newline along and counts it. *)
Theorem text_chunk_to_end_of_line (pre body rest : list N) (c : N) :
  Forall plainText (c :: body) →
  let line := (c :: body) ++ [NL] in
  let code := pre ++ line ++ rest in
  nextChunk {| input := code; pos := length pre |}
  = Returns ({| kind := KTEXT; text := line; numNL := 1 |}, None,
             {| input := code; pos := (length pre + length line)%nat |}).
Proof.
  intros Hpl line code.
  pose proof (at_offset_embedded pre line rest) as Hat. fold code in Hat.
  assert (Hline : length line = (length body + 2)%nat).
  { subst line. cbn [app length]. rewrite length_app. cbn [length]. lia. }
  assert (Hlen : (length pre + length line ≤ length code)%nat).
  { subst code. rewrite !length_app. lia. }
  clearbody code.
  pose proof Hat as Hat0. subst line. cbn [app] in Hat0.
  apply at_offset_cons in Hat0 as [H0 Hat1].
  apply at_offset_app in Hat1 as [Hbody Hnl].
  apply at_offset_cons in Hnl as [Hnl _].
  inversion Hpl as [|? ? Hc Hb]; subst.
  rewrite (nextChunk_plain code (length pre) c) by done.
  rewrite (readText_loop_skip code _ body) by (done || lia).
  destruct (S (length code - S (length pre)) - length body)%nat
    as [|fuel] eqn:Hfuel; [lia|].
  cbn [readText_loop].
  rewrite (ReadRune_lookup _ NL) by done. cbn [notNil input pos].
  change (NL =? SLASH)%N with false.
  change ((NL =? BACKTICK)%N || (NL =? DQUOTE)%N || (NL =? SQUOTE)%N) with false.
  change (NL =? NL)%N with true. cbn iota. apply f_equal.
  replace (S (S (length pre) + length body))
    with (length pre + length ((c :: body) ++ [NL]))%nat by lia.
  apply (mkChunk_embedded
           {| input := code;
              pos := (length pre + length ((c :: body) ++ [NL]))%nat |}
           (length pre) ((c :: body) ++ [NL])); cbn [input pos];
    [done | done | lia].
Qed.

Lemma text_chunk_to_end_of_line_witness :
  let code := str "x := 1" ++ nl ++ str "y := 2" ++ nl in
  nextChunk {| input := code; pos := 7 |}
  = Returns ({| kind := KTEXT; text := str "y := 2" ++ nl; numNL := 1 |}, None,
             {| input := code; pos := 14 |}).
Proof.
  apply (text_chunk_to_end_of_line (str "x := 1" ++ nl) (str " := 2") [] 121%N).
  repeat constructor; done.
Defined.

(** X7. Plain text stops in front of a quote or backtick and in front of
    the two slashes, or slash and star, that open a comment: the TEXT chunk
    ends there with a count of 0, and the read head is put back so that the
    next chunk starts at the literal or the comment. *)
Theorem text_chunk_stops_before_opener (pre body rest : list N) (c : N) :
  Forall plainText (c :: body) →
  (∃ q r, rest = q :: r ∧ (q = BACKTICK ∨ q = DQUOTE ∨ q = SQUOTE))
  ∨ (∃ c2 r, rest = SLASH :: c2 :: r ∧ (c2 = SLASH ∨ c2 = STAR)) →
  let code := pre ++ (c :: body) ++ rest in
  nextChunk {| input := code; pos := length pre |}
  = Returns ({| kind := KTEXT; text := c :: body; numNL := 0 |}, None,
             {| input := code; pos := (length pre + length (c :: body))%nat |}).
Proof.
  intros Hpl Hopen code.
  pose proof (at_offset_embedded pre ((c :: body) ++ rest) []) as Hat.
  rewrite app_nil_r in Hat. fold code in Hat.
  assert (Hlen : length code = (length pre + S (length body) + length rest)%nat).
  { subst code. rewrite !length_app. cbn [length]. lia. }
  clearbody code.
  apply at_offset_app in Hat as [Htext Hrest].
  pose proof Htext as Htext0.
  apply at_offset_cons in Htext0 as [H0 Hbody].
  inversion Hpl as [|? ? Hc Hb]; subst.
  rewrite (nextChunk_plain code (length pre) c) by done.
  rewrite (readText_loop_skip code _ body) by (done || lia).
  assert (Hend : ∀ s', input s' = code → pos s' = (length pre + length (c :: body))%nat →
            mkChunk (length code - length pre) s' KTEXT 0 None
            = ({| kind := KTEXT; text := c :: body; numNL := 0 |}, None, s')).
  { intros s' Hi Hp. rewrite <- Hi.
    apply (mkChunk_embedded s' (length pre) (c :: body)); rewrite ?Hi; [done|done|lia]. }
  cbn [length] in *.
  destruct Hopen as [(q & r & -> & Hq) | (c2 & r & -> & Hc2)].
  - apply at_offset_cons in Hrest as [Hq0 _]. cbn [length] in Hlen.
    destruct (S (length code - S (length pre)) - length body)%nat
      as [|fuel] eqn:Hfuel; [lia|].
    cbn [readText_loop].
    replace (length pre + S (length body))%nat
      with (S (length pre) + length body)%nat in Hq0 by lia.
    rewrite (ReadRune_lookup _ q) by done. cbn [notNil input pos].
    assert (Hcase : (q =? SLASH)%N = false
              ∧ (q =? BACKTICK)%N || (q =? DQUOTE)%N || (q =? SQUOTE)%N = true).
    { by destruct Hq as [-> | [-> | ->]]. }
    destruct Hcase as [-> ->]. unfold UnreadRune. cbn [input pos Nat.pred].
    rewrite Hend; cbn [input pos]; [|done|lia].
    do 3 f_equal. lia.
  - apply at_offset_cons in Hrest as [Hs0 Hrest].
    apply at_offset_cons in Hrest as [Hc0 _]. cbn [length] in Hlen.
    destruct (S (length code - S (length pre)) - length body)%nat
      as [|fuel] eqn:Hfuel; [lia|].
    cbn [readText_loop].
    replace (length pre + S (length body))%nat
      with (S (length pre) + length body)%nat in Hs0 by lia.
    replace (S (length pre + S (length body)))%nat
      with (S (S (length pre) + length body))%nat in Hc0 by lia.
    rewrite (ReadRune_lookup _ SLASH) by done. cbn [notNil input pos].
    change (SLASH =? SLASH)%N with true. cbn iota.
    rewrite (ReadRune_lookup _ c2) by done. cbn [notNil input pos].
    assert (Hcase : (c2 =? STAR)%N || (c2 =? SLASH)%N = true).
    { by destruct Hc2 as [-> | ->]. }
    rewrite Hcase. unfold Reset, Mark, Len. cbn [input pos].
    rewrite Hend; cbn [input pos]; [|done|lia].
    do 3 f_equal. lia.
Qed.

Lemma text_chunk_stops_before_opener_witness :
  let code := str "x := 1 // one" ++ nl in
  nextChunk (NewScanner code)
  = Returns ({| kind := KTEXT; text := str "x := 1 "; numNL := 0 |}, None,
             {| input := code; pos := 7 |}).
Proof.
  apply (text_chunk_stops_before_opener [] (str " := 1 ") (str "// one" ++ nl) 120%N).
  - repeat constructor; done.
  - right. by exists SLASH, (str " one" ++ nl); split; [|left].
Defined.

(** X1. [nextChunk] reports [io.EOF] only when nothing is left to read,
    and then hands back the zero chunk and leaves the scanner alone.  While
    something is left, a call ends in one of two ways: with the panic of
    [readString], or with no error and a chunk that is not empty, namely
    the input from the old read head to the new one, which has moved
    forward inside the input. *)
Theorem nextChunk_progress (s : Scanner) :
  (pos s ≤ length (input s))%nat →
  (pos s = length (input s) → nextChunk s = Returns (zeroChunk, Some EOF, s))
  ∧ ((pos s < length (input s))%nat →
       (∃ at_, nextChunk s = Panics (NewlineInString at_))
       ∨ ∃ c s', nextChunk s = Returns (c, None, s')
            ∧ text c ≠ [] ∧ input s' = input s
            ∧ (pos s < pos s' ≤ length (input s))%nat
            ∧ text c = take (pos s' - pos s) (drop (pos s) (input s))).
Proof.
  intros Hp. destruct (nextChunk_reads s Hp) as [[Hle Heof] | [Hlt Hr]].
  - split; [done|]. intros; lia.
  - split; [lia|]. intros _.
    destruct (nextChunk s) as [[[c e] s']|p|]; cbn in Hr; [| |done].
    + right. destruct Hr as (Hi & -> & Hpos & Htxt & _).
      exists c, s'. split_and!; try done; try lia.
      intros Hnil. apply (f_equal length) in Htxt.
      rewrite Hnil, length_take, length_drop in Htxt. cbn in Htxt. lia.
    + left. destruct Hr as [[at_ ->] _]. by exists at_.
Qed.

Lemma nextChunk_progress_witness :
  let s := {| input := str "ab" ++ nl ++ str "c"; pos := 1 |} in
  (∃ at_, nextChunk s = Panics (NewlineInString at_))
  ∨ ∃ c s', nextChunk s = Returns (c, None, s')
       ∧ text c ≠ [] ∧ input s' = input s
       ∧ (pos s < pos s' ≤ length (input s))%nat
       ∧ text c = take (pos s' - pos s) (drop (pos s) (input s)).
Proof.
  intros s.
  assert (Hle : (pos s ≤ length (input s))%nat) by (vm_compute; lia).
  assert (Hlt : (pos s < length (input s))%nat) by (vm_compute; lia).
  exact (proj2 (nextChunk_progress s Hle) Hlt).
Defined.

Ltac loop_kind IH :=
  cbn;
  repeat match goal with
         | |- context [ReadRune ?s] => destruct (ReadRune s) as [[? ?] ?]
         | |- context [if ?b then _ else _] => destruct b
         end;
  try (intros [= <- _ _]; reflexivity); try done; try apply IH.

Lemma readSingleLineComment_loop_kind fuel : ∀ mark s c e s',
  readSingleLineComment_loop fuel mark s = Returns (c, e, s') → kind c = KCOMMENT.
Proof. induction fuel as [|fuel IH]; intros mark s c e s'; loop_kind IH. Qed.

Lemma readMultilineComment_loop_kind fuel : ∀ n mark s c e s',
  readMultilineComment_loop fuel n mark s = Returns (c, e, s') → kind c = KCOMMENT.
Proof. induction fuel as [|fuel IH]; intros n mark s c e s'; loop_kind IH. Qed.

Lemma readString_loop_kind fuel : ∀ mark s q c e s',
  readString_loop fuel mark s q = Returns (c, e, s') → kind c = KSTRING.
Proof. induction fuel as [|fuel IH]; intros mark s q c e s'; loop_kind IH. Qed.

Lemma readMultilineString_loop_kind fuel : ∀ n mark s c e s',
  readMultilineString_loop fuel n mark s = Returns (c, e, s') → kind c = KSTRING.
Proof. induction fuel as [|fuel IH]; intros n mark s c e s'; loop_kind IH. Qed.

Lemma readText_loop_kind fuel : ∀ mark s c e s',
  readText_loop fuel mark s = Returns (c, e, s') → kind c = KTEXT.
Proof. induction fuel as [|fuel IH]; intros mark s c e s'; loop_kind IH. Qed.

(** X2. The first rune of a chunk decides what it can be: a STRING chunk
    starts with a quote or a backtick, a COMMENT chunk with a slash, and a
    TEXT chunk never starts with a quote or a backtick. *)
Theorem chunk_kind_by_first_rune (s : Scanner) (c : Chunk) (s' : Scanner) :
  (pos s ≤ length (input s))%nat →
  nextChunk s = Returns (c, None, s') →
  ∃ ch, input s !! pos s = Some ch ∧ head (text c) = Some ch
        ∧ ((kind c = KSTRING ∧ (ch = DQUOTE ∨ ch = SQUOTE ∨ ch = BACKTICK))
           ∨ (kind c = KCOMMENT ∧ ch = SLASH)
           ∨ (kind c = KTEXT ∧ ch ≠ DQUOTE ∧ ch ≠ SQUOTE ∧ ch ≠ BACKTICK)).
Proof.
  intros Hp Hn.
  destruct (nextChunk_reads s Hp) as [[_ Heof] | [Hlt Hr]]; [congruence|].
  rewrite Hn in Hr. destruct Hr as (_ & _ & Hpos & Htxt & _).
  destruct (lookup_lt_is_Some_2 (input s) (pos s) Hlt) as [ch Hch].
  exists ch. split; [done|]. split.
  { rewrite Htxt. rewrite head_lookup, lookup_take_lt, lookup_drop by lia.
    by rewrite Nat.add_0_r. }
  revert Hn. unfold nextChunk.
  rewrite (ReadRune_lookup _ ch) by done. cbn [notNil].
  destruct (N.eqb_spec ch SLASH) as [->|Hsl].
  { destruct (ReadRune _) as [[ch2 e2] s2].
    destruct (notNil e2); [intros [= <- _ _]; by right; left|].
    destruct (ch2 =? SLASH)%N;
      [intros ?%readSingleLineComment_loop_kind; by right; left|].
    destruct (ch2 =? STAR)%N;
      [intros ?%readMultilineComment_loop_kind; by right; left|].
    intros ?%readText_loop_kind. right; right. by split_and!. }
  destruct (N.eqb_spec ch DQUOTE) as [->|Hdq];
    [intros ?%readString_loop_kind; left; split; auto|].
  destruct (N.eqb_spec ch SQUOTE) as [->|Hsq];
    [intros ?%readString_loop_kind; left; split; auto|].
  cbn [orb].
  destruct (N.eqb_spec ch BACKTICK) as [->|Hbt];
    [intros ?%readMultilineString_loop_kind; left; split; auto|].
  destruct (ch =? NL)%N; [intros [= <- _]; by right; right|].
  intros ?%readText_loop_kind. by right; right.
Qed.

Lemma chunk_kind_by_first_rune_witness :
  ∃ ch, str "'a' + b" !! 0%nat = Some ch ∧ head (str "'a'") = Some ch
        ∧ ((KSTRING = KSTRING ∧ (ch = DQUOTE ∨ ch = SQUOTE ∨ ch = BACKTICK))
           ∨ (KSTRING = KCOMMENT ∧ ch = SLASH)
           ∨ (KSTRING = KTEXT ∧ ch ≠ DQUOTE ∧ ch ≠ SQUOTE ∧ ch ≠ BACKTICK)).
Proof.
  apply (chunk_kind_by_first_rune (NewScanner (str "'a' + b"))
           {| kind := KSTRING; text := str "'a'"; numNL := 0 |}
           {| input := str "'a' + b"; pos := 3 |}).
  - vm_compute. lia.
  - vm_compute. reflexivity.
Defined.

(** ** Lines *)

(** The text filed under a line number. *)
Definition lineText (m : gmap Z (list Chunk)) (ln : Z) : list N :=
  concat (text <$> default [] (m !! ln)).

Lemma foldl_texts (cs : list Chunk) (acc : list N) :
  foldl (λ retLine chunk, retLine ++ text chunk) acc cs
  = acc ++ concat (text <$> cs).
Proof.
  revert acc. induction cs as [|c cs IH]; intros acc; cbn [foldl].
  { by rewrite app_nil_r. }
  rewrite IH, fmap_cons. cbn [concat]. by rewrite <- app_assoc.
Qed.

Lemma processLine_line lineNo st :
  (processLine lineNo st).1 = lineText (chunks st) lineNo.
Proof.
  unfold processLine, lineText. destruct (chunks st !! lineNo) as [cs|]; [|done].
  cbn [fst default]. apply (foldl_texts cs []).
Qed.

Lemma concat_map_ext (f g : Z → list N) (l : list Z) :
  (∀ k, k ∈ l → f k = g k) → concat (map f l) = concat (map g l).
Proof.
  induction l as [|k l IH]; intros H; [done|]. cbn.
  rewrite (H k) by apply list_elem_of_here.
  rewrite IH; [done|]. intros k' Hk'. apply H. by apply list_elem_of_further.
Qed.

Lemma concat_map_nil (f : Z → list N) (l : list Z) :
  (∀ k, k ∈ l → f k = []) → concat (map f l) = [].
Proof.
  induction l as [|k l IH]; intros H; [done|]. cbn.
  rewrite (H k) by apply list_elem_of_here.
  apply IH. intros k' Hk'. apply H. by apply list_elem_of_further.
Qed.

(** Filing one more chunk appends its text to the text of all lines. *)
Lemma addChunk_lines (s : State) (c : Chunk) :
  0 ≤ numNL c → 1 ≤ lineNum s →
  (∀ k, is_Some (chunks s !! k) → 1 ≤ k ≤ lineNum s) →
  let s' := addChunk s c in
  concat (map (lineText (chunks s')) (seqZ 1 (lineNum s')))
  = concat (map (lineText (chunks s)) (seqZ 1 (lineNum s))) ++ text c
  ∧ 1 ≤ lineNum s'
  ∧ (∀ k, is_Some (chunks s' !! k) → 1 ≤ k ≤ lineNum s').
Proof.
  intros Hn Hl Hkeys s'. subst s'. unfold addChunk. cbn.
  set (L := lineNum s) in *. set (m := chunks s) in *.
  set (old := default [] (m !! L)).
  split_and!; [|lia|].
  - assert (Hone : seqZ L 1 = [L]).
    { rewrite seqZ_cons by lia. by rewrite seqZ_nil by lia. }
    assert (Hold : seqZ 1 L = seqZ 1 (L - 1) ++ [L]).
    { replace L with ((L - 1) + 1) at 1 by lia. rewrite seqZ_app by lia.
      replace (1 + (L - 1)) with L by lia. by rewrite Hone. }
    assert (Hnew : seqZ 1 (L + numNL c)
                   = seqZ 1 (L - 1) ++ [L] ++ seqZ (L + 1) (numNL c)).
    { replace (L + numNL c) with ((L - 1) + (1 + numNL c)) by lia.
      rewrite seqZ_app by lia. replace (1 + (L - 1)) with L by lia.
      rewrite seqZ_app by lia. by rewrite Hone. }
    rewrite Hold, Hnew. rewrite !map_app, !concat_app.
    cbn [map concat]. rewrite !app_nil_r.
    rewrite (concat_map_ext (lineText (<[L:=old ++ [c]]> m)) (lineText m)
               (seqZ 1 (L - 1))).
    2:{ intros k Hk%elem_of_seqZ. unfold lineText.
        by rewrite lookup_insert_ne by lia. }
    rewrite (concat_map_nil _ (seqZ (L + 1) (numNL c))).
    2:{ intros k Hk%elem_of_seqZ. unfold lineText.
        rewrite lookup_insert_ne by lia.
        destruct (m !! k) eqn:E; [|done].
        assert (1 ≤ k ≤ L) by (apply Hkeys; by rewrite E). lia. }
    rewrite app_nil_r, <- app_assoc. f_equal.
    unfold lineText. rewrite lookup_insert_eq.
    change (default [] (Some (old ++ [c]))) with (old ++ [c]).
    rewrite fmap_app, concat_app. cbn. by rewrite app_nil_r.
  - intros k [x Hk].
    destruct (decide (L = k)) as [<-|Hne]; [lia|].
    rewrite lookup_insert_ne in Hk by done.
    assert (1 ≤ k ≤ L) by (apply Hkeys; by rewrite Hk). lia.
Qed.

Lemma addChunks_lines (cs : list Chunk) : ∀ s,
  Forall (λ c, 0 ≤ numNL c) cs → 1 ≤ lineNum s →
  (∀ k, is_Some (chunks s !! k) → 1 ≤ k ≤ lineNum s) →
  let s' := foldl addChunk s cs in
  concat (map (lineText (chunks s')) (seqZ 1 (lineNum s')))
  = concat (map (lineText (chunks s)) (seqZ 1 (lineNum s)))
    ++ concat (text <$> cs).
Proof.
  induction cs as [|c cs IH]; intros s Hall Hl Hkeys; cbn [foldl].
  { cbn. by rewrite app_nil_r. }
  inversion Hall as [|? ? Hc Hcs]; subst.
  destruct (addChunk_lines s c Hc Hl Hkeys) as (Hstep & Hl' & Hkeys').
  cbn zeta in *. rewrite (IH (addChunk s c) Hcs Hl' Hkeys'), Hstep.
  rewrite fmap_cons. cbn [concat]. by rewrite <- app_assoc.
Qed.

Lemma stateAfter_chunks code n :
  chunks (stateAfter code n) = chunks (scanned code).
Proof.
  unfold stateAfter.
  by destruct (partition_lines_pkgs (take n (seqZ 1 (lineNum (scanned code))))
                 [] [] [] (scanned code)) as (H & _).
Qed.

(** X8. When chunking reaches the end of the input, the lines that
    [partition] gets from [processLine] for the line numbers 1 up to the
    line count, put together in order, are the input: every rune of the
    input goes to one of the two buffers, once, and in order. *)
Theorem emitted_lines_roundtrip (code : list N) :
  (chunksOf code).2 = Returns tt →
  concat (map (emittedLine code) (seqZ 1 (lineNum (scanned code)))) = code.
Proof.
  intros Heof.
  rewrite (concat_map_ext (emittedLine code) (lineText (chunks (scanned code)))).
  2:{ intros k _. unfold emittedLine.
      by rewrite processLine_line, stateAfter_chunks. }
  rewrite scanned_eq.
  rewrite (addChunks_lines (chunksOf code).1 initState (chunksOf_numNL code));
    cbn [initState lineNum chunks]; [|lia|].
  2:{ intros k [x Hk]. by rewrite lookup_empty in Hk. }
  destruct (chunk_loop_tiles (S (length code)) (NewScanner code)) as [_ H];
    [cbn; lia | unfold Len; cbn; lia |].
  unfold chunksOf in *.
  destruct (chunk_loop snoc (S (length code)) (NewScanner code) [])
    as [cs o]. cbn [fst snd] in *. subst o. cbn in H. rewrite H.
  by vm_compute.
Qed.

Lemma emitted_lines_roundtrip_witness :
  let code := str "type T struct {" ++ nl ++ str "  x int // f" ++ nl
              ++ str "}" ++ nl ++ str "s := `a" ++ nl ++ str "b`" in
  concat (map (emittedLine code) (seqZ 1 (lineNum (scanned code)))) = code.
Proof.
  intros code. apply (emitted_lines_roundtrip code). vm_compute. reflexivity.
Defined.

(** ** Routing of lines *)

Lemma processLine_isTopLevel lineNo s :
  isTopLevel (processLine lineNo s).2
  = match chunks s !! lineNo with
    | Some cs =>
        isTopLevel (lineStart (TrimLeft (extractTxt cs) [SPACE; TAB])
                              (inferLine cs s))
    | None => isTopLevel s
    end.
Proof.
  unfold processLine. destruct (chunks s !! lineNo) as [cs|]; [|done].
  cbn [snd]. by destruct (lineEnd_frame
    (TrimSpace (TrimLeft (extractTxt cs) [SPACE; TAB]))
    (lineStart (TrimLeft (extractTxt cs) [SPACE; TAB]) (inferLine cs s)))
    as (_ & _ & _ & ->).
Qed.

(** X9. While a block is open, [processLine] does not touch
    [isTopLevel]: a line inside the block, and the line that closes it, go
    to the buffer that the line before went to. *)
Theorem open_block_keeps_routing (lineNo : Z) (s : State) (top body : list N) :
  brackCount s ≠ 0 →
  let line := (processLine lineNo s).1 in
  let s' := (processLine lineNo s).2 in
  isTopLevel s' = isTopLevel s
  ∧ partition_line (top, body, s) lineNo
    = if isTopLevel s then (addLine lineNo top line, body, s')
      else (top, addLine lineNo body line, s').
Proof.
  intros Hopen line s'.
  assert (Htop : isTopLevel s' = isTopLevel s).
  { subst s'. rewrite processLine_isTopLevel.
    destruct (chunks s !! lineNo) as [cs|]; [|done].
    destruct (inferLine_frame cs s) as (_ & Htop & _ & Hcount & _ & _).
    unfold lineStart.
    destruct (TrimLeft (extractTxt cs) [SPACE; TAB]) as [|l0 l]; [done|].
    destruct (l0 =? closingCh (inferLine cs s))%N.
    - cbn [set_brackCount brackCount].
      by destruct (brackCount (inferLine cs s) - 1 =? 0).
    - rewrite Hcount. by destruct (Z.eqb_spec (brackCount s) 0). }
  split; [done|]. unfold partition_line. subst line s'.
  destruct (processLine lineNo s) as [ln st]. cbn [fst snd] in *.
  by rewrite Htop.
Qed.

Lemma open_block_keeps_routing_witness :
  let code := str "func f() {" ++ nl ++ str "x := 1" ++ nl ++ str "}" ++ nl in
  let s := stateAfter code 1 in
  isTopLevel (processLine 2 s).2 = isTopLevel s
  ∧ partition_line ([], [], s) 2
    = if isTopLevel s
      then (addLine 2 [] (processLine 2 s).1, [], (processLine 2 s).2)
      else ([], addLine 2 [] (processLine 2 s).1, (processLine 2 s).2).
Proof.
  intros code s. apply (open_block_keeps_routing 2 s [] []).
  vm_compute. discriminate.
Defined.

(** X10. With no block open, a line that has structural text is a top
    level line exactly when that text, after its leading blanks and tabs,
    starts with one of the words func, type and import followed by a
    blank. *)
Theorem declaration_line_routing (lineNo : Z) (s : State) (cs : list Chunk) :
  brackCount s = 0 → closingCh s = SPACE →
  chunks s !! lineNo = Some cs →
  let l := TrimLeft (extractTxt cs) [SPACE; TAB] in
  l ≠ [] →
  isTopLevel (processLine lineNo s).2
  = HasPrefix l (str "func ") || HasPrefix l (str "type ")
    || HasPrefix l (str "import ").
Proof.
  intros Hcount Hch Hcs l Hl. rewrite processLine_isTopLevel, Hcs. fold l.
  destruct (inferLine_frame cs s) as (_ & _ & _ & Hcount' & Hch' & _).
  unfold lineStart. destruct l as [|l0 l'] eqn:El; [done|].
  apply TrimLeft_head in El as [Hsp _].
  rewrite Hch', Hch, Hcount', Hcount.
  destruct (N.eqb_spec l0 SPACE) as [?|_]; [done|]. done.
Qed.

Lemma declaration_line_routing_witness :
  let code := str "x := 1" ++ nl ++ str "  type T int" ++ nl in
  isTopLevel (processLine 2 (stateAfter code 1)).2 = true.
Proof.
  intros code.
  apply (declaration_line_routing 2 (stateAfter code 1)
           [{| kind := KTEXT; text := str "  type T int" ++ nl; numNL := 1 |}]);
    vm_compute; (reflexivity || discriminate).
Defined.

(** ** The outcomes of [partition] *)

Lemma partition_lines_final code :
  (partition_lines (scanned code)).2
  = stateAfter code (Z.to_nat (lineNum (scanned code))).
Proof.
  unfold partition_lines, stateAfter. rewrite take_ge; [done|].
  by rewrite length_seqZ.
Qed.

(** X11. [partition] ends in one of three ways.  It panics over a
    newline in a quoted literal exactly as the chunker does; when chunking
    reaches the end of the input, it panics over an unclosed bracket with
    the final depth, which is then positive, or it returns, and the final
    depth is zero. *)
Theorem partition_outcomes (code : list N) :
  let final := stateAfter code (Z.to_nat (lineNum (scanned code))) in
  match partition code with
  | Returns (topLevel, nonTopLevel, imports) =>
      (chunksOf code).2 = Returns tt ∧ brackCount final = 0
      ∧ imports = pkgsToImport final
  | Panics (NewlineInString at_) =>
      (chunksOf code).2 = Panics (NewlineInString at_)
  | Panics (BracketNotClosed openAt count) =>
      (chunksOf code).2 = Returns tt ∧ 0 < count ∧ count = brackCount final
  | Panics (ErrorValue _) => False
  | OutOfFuel => False
  end.
Proof.
  intros final. subst final. rewrite <- partition_lines_final.
  destruct (stateAfter_bracketInv code (Z.to_nat (lineNum (scanned code))))
    as [Hinv _].
  rewrite <- partition_lines_final in Hinv.
  unfold partition. rewrite chunk_loop_foldl. fold (chunksOf code).
  rewrite <- scanned_eq.
  destruct (chunk_loop_tiles (S (length code)) (NewScanner code)) as [_ H];
    [cbn; lia | unfold Len; cbn; lia |].
  fold (chunksOf code) in H.
  destruct (chunksOf code) as [cs [[]|p|]]; cbn [fst snd] in *; [| |done].
  - destruct (partition_lines (scanned code)) as [[top body] st].
    cbn [snd] in *. destruct (Z.ltb_spec 0 (brackCount st)).
    + by split_and!.
    + split_and!; try done.
      destruct Hinv as [(? & _)|(? & _)]; lia.
  - by destruct H as [[at_ ->] _].
Qed.

Lemma partition_outcomes_witness :
  let code := str "f(" ++ nl ++ str "1," ++ nl in
  partition code = Panics (BracketNotClosed 3 1)
  ∧ (chunksOf code).2 = Returns tt
  ∧ brackCount (stateAfter code (Z.to_nat (lineNum (scanned code)))) = 1.
Proof.
  intros code. pose proof (partition_outcomes code) as H.
  assert (Hp : partition code = Panics (BracketNotClosed 3 1))
    by (vm_compute; reflexivity).
  rewrite Hp in H. destruct H as (H1 & _ & H3). by split_and!.
Defined.

(** ** What [repairImports] does to the import set *)

Lemma takeWhile_Forall (p : N → bool) s : Forall (λ c, p c = true) (takeWhile p s).
Proof.
  induction s as [|c s IH]; cbn; [done|].
  destruct (p c) eqn:E; [by constructor | done].
Qed.

Lemma repair_at_words s g1 g2 n :
  repair_at s = Some (g1, g2, n) →
  Forall (λ c, isWord c = true) g1 ∧ Forall (λ c, isWord c = true) g2.
Proof.
  unfold repair_at.
  destruct ((0 <? length (takeWhile isWord s))%nat && HasPrefix _ _).
  { intros [= <- <- _]. split; [apply takeWhile_Forall | done]. }
  destruct (HasPrefix s _); [|done].
  pose proof (takeWhile_Forall isWord
    (drop (length (str "imported and not used: " ++ [DQUOTE])) s)) as Hw.
  destruct (takeWhile isWord _) as [|w0 w]; [done|].
  destruct (dropWhile isWord _) as [|d r]; [done|].
  destruct (d =? DQUOTE)%N; [|done].
  intros [= <- <- _]. by split.
Qed.

Lemma repair_matches_words s : ∀ skip g,
  g ∈ repair_matches skip s →
  Forall (λ c, isWord c = true) g.1 ∧ Forall (λ c, isWord c = true) g.2.
Proof.
  induction s as [|a s IH]; intros skip g; cbn [repair_matches].
  { by intros ?%elem_of_nil. }
  destruct skip as [|k]; [|apply IH].
  destruct (repair_at (a :: s)) as [[[g1 g2] n]|] eqn:E; [|apply IH].
  intros [->|Hg]%elem_of_cons; [|by eapply IH].
  by apply repair_at_words in E.
Qed.

(** What the loop of [repairImports] keeps true of the set it started
    from, [m0]: entries are only taken away, only entries with the value
    true and a name made of word characters, and as long as no repair is
    flagged the set is the one it started from. *)
Definition repairInv (m0 : gmap (list N) bool)
    (acc : bool * list N * gmap (list N) bool) : Prop :=
  (∀ k, acc.2 !! k = m0 !! k
        ∨ (acc.2 !! k = None ∧ m0 !! k = Some true
           ∧ Forall (λ c, isWord c = true) k))
  ∧ (acc.1.1 = false → acc.2 = m0)
  ∧ Forall (λ c, isWord c = true) acc.1.2.

Lemma repair_step_repairInv m0 acc g :
  Forall (λ c, isWord c = true) g.1 → Forall (λ c, isWord c = true) g.2 →
  repairInv m0 acc → repairInv m0 (repair_step acc g).
Proof.
  destruct acc as [[d pkg] m]. intros Hg1 Hg2 (Hsub & Hd & Hpkg).
  cbn [fst snd] in *. unfold repair_step.
  set (pkg' := match g.1, g.2 with
               | _ :: _, _ => g.1 | [], _ :: _ => g.2 | [], [] => pkg end).
  assert (Hpkg' : Forall (λ c, isWord c = true) pkg').
  { subst pkg'. destruct g.1; [destruct g.2|]; done. }
  destruct (m !! pkg') as [[]|] eqn:E; cbn; try by split_and!.
  split_and!; [|done|done].
  intros k. cbn [snd]. destruct (decide (k = pkg')) as [->|Hne].
  - right. rewrite lookup_delete_eq. split_and!; [done| |done].
    destruct (Hsub pkg') as [H|[H _]]; congruence.
  - rewrite lookup_delete_ne by done. apply Hsub.
Qed.

Lemma repair_fold_repairInv m0 ms : ∀ acc,
  (∀ g, g ∈ ms → Forall (λ c, isWord c = true) g.1
                 ∧ Forall (λ c, isWord c = true) g.2) →
  repairInv m0 acc → repairInv m0 (foldl repair_step acc ms).
Proof.
  induction ms as [|g ms IH]; intros acc Hms Hinv; cbn [foldl]; [done|].
  apply IH.
  - intros g' Hg'. apply Hms. by apply list_elem_of_further.
  - destruct (Hms g) as [H1 H2]; [apply list_elem_of_here|].
    by apply repair_step_repairInv.
Qed.

Lemma repairImports_repairInv err m :
  ∃ pkg, repairInv m ((repairImports err m).1, pkg, (repairImports err m).2).
Proof.
  unfold repairImports.
  pose proof (repair_fold_repairInv m (repair_matches 0 err) (false, [], m)
                (repair_matches_words err 0)) as H.
  destruct (foldl repair_step (false, [], m) (repair_matches 0 err))
    as [[d pkg] m']. exists pkg. apply H.
  split_and!; [by left | done | done].
Qed.

(** X12. [repairImports] never adds an entry to the import set and never
    changes the value of one: each entry of the result is an entry of the
    set it was given, and an entry that is gone had the value true.  When
    it reports no repair, the set is the one it was given. *)
Theorem repairImports_only_removes (err : list N) (m : gmap (list N) bool) :
  let d := (repairImports err m).1 in
  let m' := (repairImports err m).2 in
  (∀ k, m' !! k = m !! k ∨ (m' !! k = None ∧ m !! k = Some true))
  ∧ (d = false → m' = m).
Proof.
  intros d m'. subst d m'.
  destruct (repairImports_repairInv err m) as [pkg (Hsub & Hd & _)].
  cbn [fst snd] in *. split; [|done].
  intros k. destruct (Hsub k) as [?|(? & ? & _)]; auto.
Qed.

(** X13. [repairImports] looks the name of a diagnostic up as it stands,
    and that name is made of letters, digits and underscores.  An import
    whose path holds any other character, such as the slash of net/http,
    is therefore never removed, whatever the diagnostics say. *)
Theorem repairImports_keeps_paths (err : list N) (m : gmap (list N) bool)
    (k : list N) :
  (∃ c, c ∈ k ∧ isWord c = false) →
  (repairImports err m).2 !! k = m !! k.
Proof.
  intros (c & Hc & Hw).
  destruct (repairImports_repairInv err m) as [pkg (Hsub & _ & _)].
  cbn [fst snd] in *. destruct (Hsub k) as [?|(_ & _ & Hk)]; [done|].
  rewrite Forall_forall in Hk. specialize (Hk c Hc). congruence.
Qed.

Lemma repairImports_keeps_paths_witness :
  let err := str "gore_eval.go:4: imported and not used: " ++ dq ++ str "http"
             ++ dq ++ nl in
  let m : gmap (list N) bool := {[ str "net/http" := true ]} in
  (repairImports err m).2 !! str "net/http" = m !! str "net/http".
Proof.
  intros err m. apply (repairImports_keeps_paths err m (str "net/http")).
  exists SLASH. split; [|reflexivity].
  vm_compute. do 3 apply list_elem_of_further. apply list_elem_of_here.
Defined.

(** ** The import set, again *)

(** X15. [inferPackages] only adds: what it does to the set does not
    depend on what is in the set already, so that reading a text a second
    time changes nothing, and two texts give the same set in either
    order. *)
Theorem inferPackages_idempotent_commutes (a b : list N)
    (m : gmap (list N) bool) :
  inferPackages a (inferPackages a m) = inferPackages a m
  ∧ inferPackages a (inferPackages b m) = inferPackages b (inferPackages a m).
Proof.
  assert (Hchar : ∀ code pk path,
    (inferPackages code pk !! path = Some true
     ∨ inferPackages code pk !! path = pk !! path)
    ∧ (pk !! path = Some true → inferPackages code pk !! path = Some true)
    ∧ (inferPackages code pk !! path ≠ pk !! path →
       ∀ pk', inferPackages code pk' !! path = Some true)).
  { intros code pk path.
    destruct (inferPackages_fold (pkgPat_FindAllString code) pk path)
      as (H1 & H2 & H3 & _).
    split_and!; [exact H1 | exact H2 |].
    intros Hne pk'. destruct (H3 Hne) as (mt & Hmt & Hb).
    by eapply (inferPackages_fold (pkgPat_FindAllString code) pk' path). }
  split; apply map_eq; intros path.
  - destruct (decide (inferPackages a (inferPackages a m) !! path
                      = inferPackages a m !! path)) as [?|Hne]; [done|].
    destruct (Hchar a (inferPackages a m) path) as (_ & _ & H3).
    by rewrite !(H3 Hne).
  - destruct (decide (inferPackages a (inferPackages b m) !! path
                      = inferPackages b m !! path)) as [Ha|Ha].
    + destruct (decide (inferPackages b (inferPackages a m) !! path
                        = inferPackages a m !! path)) as [Hb|Hb].
      * rewrite Ha, Hb.
        destruct (decide (inferPackages b m !! path = m !! path)) as [Hb'|Hb'].
        -- destruct (decide (inferPackages a m !! path = m !! path)) as [Ha'|Ha'];
             [congruence|].
           destruct (Hchar a m path) as (_ & _ & H3).
           rewrite <- Ha. by rewrite !(H3 Ha').
        -- destruct (Hchar b m path) as (_ & _ & H3).
           rewrite <- Hb. by rewrite !(H3 Hb').
      * destruct (Hchar b (inferPackages a m) path) as (_ & _ & H3).
        rewrite (H3 Hb). rewrite Ha. by rewrite (H3 Hb).
    + destruct (Hchar a (inferPackages b m) path) as (_ & _ & H3).
      rewrite (H3 Ha).
      destruct (Hchar b (inferPackages a m) path) as (_ & H2 & _).
      symmetry. apply H2. by rewrite (H3 Ha).
Qed.

Lemma inferLine_from_table (code : list N) (cs : list Chunk) : ∀ s,
  (∀ c, c ∈ cs → c ∈ (chunksOf code).1) →
  (∀ k v, pkgsToImport s !! k = Some v →
     v = true ∧ ∃ q, builtinPkgs !! q = Some k ∧ q ∈ qualifiersOf code) →
  ∀ k v, pkgsToImport (inferLine cs s) !! k = Some v →
     v = true ∧ ∃ q, builtinPkgs !! q = Some k ∧ q ∈ qualifiersOf code.
Proof.
  unfold inferLine. induction cs as [|c cs IH]; intros s Hcs Hs; cbn [foldl];
    [done|].
  apply IH. { intros c' Hc'. apply Hcs. by apply list_elem_of_further. }
  destruct (Z.eqb_spec (kind c) KTEXT) as [Hk|_]; [|done].
  cbn. intros k v Hkv. unfold inferPackages in Hkv.
  destruct (inferPackages_fold (pkgPat_FindAllString (text c))
              (pkgsToImport s) k) as (H1 & _ & H3 & _).
  destruct (decide (foldl
    (λ (pk : gmap (list N) bool) (m : list N),
       match builtinPkgs !! take (length m - 1) m with
       | Some importPkg => <[importPkg:=true]> pk
       | None => pk
       end) (pkgsToImport s) (pkgPat_FindAllString (text c)) !! k
    = pkgsToImport s !! k)) as [Heq|Hne].
  { apply Hs. by rewrite <- Heq. }
  destruct H1 as [H1|H1]; [|done].
  split; [congruence|].
  destruct (H3 Hne) as (mt & Hmt & Hb).
  exists (take (length mt - 1) mt). split; [done|].
  unfold qualifiersOf. apply list_elem_of_In, in_concat.
  eexists. split.
  - apply in_map_iff. exists c. split; [reflexivity|].
    apply list_elem_of_In, Hcs, list_elem_of_here.
  - rewrite Hk. cbn. apply in_map_iff. exists mt. split; [done|].
    by apply list_elem_of_In.
Qed.

Lemma addChunks_origin (cs : list Chunk) : ∀ s ln l c,
  chunks (foldl addChunk s cs) !! ln = Some l → c ∈ l →
  c ∈ cs ∨ ∃ l0, chunks s !! ln = Some l0 ∧ c ∈ l0.
Proof.
  induction cs as [|c' cs IH]; intros s ln l c Hl Hc; cbn [foldl] in Hl.
  { right. eauto. }
  destruct (IH _ _ _ _ Hl Hc) as [?|(l0 & Hl0 & Hc0)].
  { left. by apply list_elem_of_further. }
  unfold addChunk in Hl0. cbn in Hl0.
  destruct (decide (lineNum s = ln)) as [<-|Hne].
  - rewrite lookup_insert_eq in Hl0. injection Hl0 as <-.
    apply elem_of_app in Hc0 as [Hc0|Hc0].
    + right. destruct (chunks s !! lineNum s) as [l1|]; [eauto|].
      by apply elem_of_nil in Hc0.
    + apply list_elem_of_singleton in Hc0 as ->. left. apply list_elem_of_here.
  - rewrite lookup_insert_ne in Hl0 by done. right. eauto.
Qed.

Lemma partition_lines_from_table (code : list N) (ns : list Z) : ∀ top body s,
  chunks s = chunks (scanned code) →
  (∀ k v, pkgsToImport s !! k = Some v →
     v = true ∧ ∃ q, builtinPkgs !! q = Some k ∧ q ∈ qualifiersOf code) →
  ∀ k v, pkgsToImport (foldl partition_line (top, body, s) ns).2 !! k = Some v →
     v = true ∧ ∃ q, builtinPkgs !! q = Some k ∧ q ∈ qualifiersOf code.
Proof.
  induction ns as [|n ns IH]; intros top body s Hch Hs; cbn [foldl]; [done|].
  destruct (partition_line_state top body s n) as (top' & body' & ->).
  destruct (processLine_pkgs n s []) as (Hch' & _).
  apply IH; [congruence|].
  unfold processLine. destruct (chunks s !! n) as [cs|] eqn:Hcs; [|done].
  cbn [snd]. set (l := TrimLeft (extractTxt cs) [SPACE; TAB]).
  destruct (lineEnd_frame (TrimSpace l) (lineStart l (inferLine cs s)))
    as (_ & _ & -> & _).
  destruct (lineStart_frame l (inferLine cs s)) as (_ & _ & ->).
  apply (inferLine_from_table code cs s); [|done].
  intros c Hc. rewrite Hch, scanned_eq in Hcs.
  destruct (addChunks_origin _ _ _ _ _ Hcs Hc) as [?|(l0 & Hl0 & _)]; [done|].
  cbn [initState chunks] in Hl0. by rewrite lookup_empty in Hl0.
Qed.

Lemma partition_returns_imports code topLevel nonTopLevel imports :
  partition code = Returns (topLevel, nonTopLevel, imports) →
  imports = pkgsToImport (partition_lines (scanned code)).2.
Proof.
  unfold partition. rewrite chunk_loop_foldl. fold (chunksOf code).
  rewrite <- scanned_eq.
  destruct (chunksOf code).2 as [[]|?|]; [|done|done].
  destruct (partition_lines (scanned code)) as [[top body] st].
  destruct (0 <? brackCount st); [done|]. by intros [= _ _ <-].
Qed.

(** X16. Every entry of the import set that [partition] returns has the
    value true and is the canonical path of a package of the table whose
    qualifier the TEXT chunks of the input refer to: nothing is imported
    that the text does not name. *)
Theorem partition_imports_from_table
    (code topLevel nonTopLevel : list N) (imports : gmap (list N) bool)
    (path : list N) (v : bool) :
  partition code = Returns (topLevel, nonTopLevel, imports) →
  imports !! path = Some v →
  v = true ∧ ∃ q, builtinPkgs !! q = Some path ∧ q ∈ qualifiersOf code.
Proof.
  intros Hpart Hv. apply partition_returns_imports in Hpart as ->.
  unfold partition_lines in Hv.
  apply (partition_lines_from_table code _ [] [] (scanned code)) in Hv;
    [done|done|].
  intros k v'. rewrite scanned_eq.
  destruct (addChunks_frame (chunksOf code).1 initState (chunksOf_numNL code))
    as (_ & _ & _ & _ & -> & _).
  cbn. by rewrite lookup_empty.
Qed.

Lemma partition_imports_from_table_witness :
  let code := str "fmt.Println(x.y, os.Args)" ++ nl in
  true = true
  ∧ ∃ q, builtinPkgs !! q = Some (str "os") ∧ q ∈ qualifiersOf code.
Proof.
  intros code.
  apply (partition_imports_from_table code []
           (str "//line :1" ++ nl ++ code ++ str "//line :2" ++ nl)
           ({[ str "fmt" := true ]} ∪ {[ str "os" := true ]}) (str "os") true);
    vm_compute; reflexivity.
Defined.

(** No two paths of the list in [init] end in the same name, so none is
    overwritten in the table: every path is found under its last
    component. *)
Lemma builtinPkgs_lookup (path : list N) :
  path ∈ pkgs → builtinPkgs !! afterLastSlash path = Some path.
Proof.
  intros Hin.
  assert (Hall : forallb (λ p, bool_decide (builtinPkgs !! afterLastSlash p = Some p))
                   pkgs = true) by (vm_compute; reflexivity).
  rewrite forallb_forall in Hall.
  apply list_elem_of_In, Hall in Hin. by apply bool_decide_eq_true_1 in Hin.
Qed.

(** X23. Every package of the list in [init] is imported when its name,
    the part of its path after the last slash, is matched by [pkgPat] in a
    TEXT chunk of the input: the import set that [partition] returns holds
    the full path with the value true. *)
Theorem partition_imports_referenced
    (code topLevel nonTopLevel : list N) (imports : gmap (list N) bool)
    (path : list N) :
  partition code = Returns (topLevel, nonTopLevel, imports) →
  path ∈ pkgs →
  afterLastSlash path ∈ qualifiersOf code →
  imports !! path = Some true.
Proof.
  intros Hpart Hin Hq.
  eapply partition_imports_matched; [exact Hpart | exact Hq |].
  by apply builtinPkgs_lookup.
Qed.

Lemma partition_imports_referenced_witness :
  let code := str "r, _ := http.Get(u)" ++ nl ++ str "http.Get(v)" ++ nl in
  let imports := {[ str "net/http" := true ]} : gmap (list N) bool in
  imports !! str "net/http" = Some true.
Proof.
  intros code imports.
  apply (partition_imports_referenced code []
           (str "//line :1" ++ nl ++ str "r, _ := http.Get(u)" ++ nl
            ++ str "//line :2" ++ nl ++ str "http.Get(v)" ++ nl
            ++ str "//line :3" ++ nl)
           imports (str "net/http")).
  - vm_compute. reflexivity.
  - apply (bool_decide_unpack _). vm_compute. exact I.
  - vm_compute. apply list_elem_of_here.
Defined.

(** ** Aliases *)

Lemma takeWhile_app_all (p : N → bool) a b :
  Forall (λ c, p c = true) a → takeWhile p (a ++ b) = a ++ takeWhile p b.
Proof.
  induction 1 as [|c a Hc _ IH]; cbn; [done|]. by rewrite Hc, IH.
Qed.

Lemma dropWhile_app_all (p : N → bool) a b :
  Forall (λ c, p c = true) a → dropWhile p (a ++ b) = dropWhile p b.
Proof.
  induction 1 as [|c a Hc _ IH]; cbn; [done|]. by rewrite Hc, IH.
Qed.

Lemma takeWhile_all (p : N → bool) a :
  Forall (λ c, p c = true) a → takeWhile p a = a.
Proof.
  intros H. rewrite <- (app_nil_r a) at 1.
  rewrite takeWhile_app_all by done. cbn. by rewrite app_nil_r.
Qed.

(** Where no line starts, nothing is replaced. *)
Lemma alias_replace_inside_line letter s : ∀ prev,
  atLineStart prev = false → NL ∉ s → alias_replace letter 0 prev s = s.
Proof.
  induction s as [|c s IH]; intros prev Hprev Hnl; cbn [alias_replace]; [done|].
  rewrite Hprev. apply not_elem_of_cons in Hnl as [Hc Hnl].
  rewrite IH; [done| |done]. cbn. by apply N.eqb_neq.
Qed.

Lemma alias_replace_skip_all letter s : ∀ k prev,
  (length s ≤ k)%nat → alias_replace letter k prev s = [].
Proof.
  induction s as [|c s IH]; intros k prev Hk; cbn [alias_replace]; [done|].
  destruct k as [|k]; [cbn in Hk; lia|]. apply IH. cbn in Hk. lia.
Qed.

(** The alias pattern for [letter] on a line that is white space, then the
    rune [l2], then [rest]. *)
Lemma alias_at_line letter l2 ws rest :
  Forall (λ c, isReSpace c = true) ws → isReSpace l2 = false →
  alias_at letter (ws ++ l2 :: rest)
  = if (l2 =? letter)%N then
      match takeWhile (N.eqb SPACE) rest, dropWhile (N.eqb SPACE) rest with
      | _ :: _, d :: s2 =>
          if isReSpace d || (d =? EQUALS)%N || (d =? COLON)%N || (d =? LPAREN)%N
          then None
          else Some (d :: takeWhile (λ x, negb (x =? NL)%N) s2,
                     (length ws + 1 + length (takeWhile (N.eqb SPACE) rest) + 1
                      + length (takeWhile (λ x, negb (x =? NL)%N) s2))%nat)
      | _, _ => None
      end
    else None.
Proof.
  intros Hws Hl2. unfold alias_at.
  rewrite takeWhile_app_all, dropWhile_app_all by done.
  cbn [takeWhile dropWhile]. rewrite Hl2. by rewrite app_nil_r.
Qed.

(** One pass of [expandAliases] over a one-line text without a match at
    its start leaves the text alone. *)
Lemma alias_replace_no_match letter s :
  NL ∉ s → alias_at letter s = None → alias_replace letter 0 None s = s.
Proof.
  intros Hnl Hat. destruct s as [|c s]; [done|]. cbn [alias_replace atLineStart].
  rewrite Hat. apply not_elem_of_cons in Hnl as [Hc Hnl].
  rewrite alias_replace_inside_line; [done| |done]. cbn. by apply N.eqb_neq.
Qed.

(** X17. On a one-line text, [expandAliases] turns the letter p or t that
    follows the leading blanks and is followed by one blank or more and
    then by arguments into a call of the helper, __p or __t, around the
    arguments, and drops the leading blanks.  When the first rune after the
    letter and its blanks is =, : or an opening parenthesis, as in an
    assignment, a short declaration or a call, the text stays as it is. *)
Theorem expandAliases_line (letter : N) (ws sp args : list N) (d : N) :
  letter = 112%N ∨ letter = 116%N →
  Forall (λ c, c = SPACE ∨ c = TAB) ws →
  Forall (λ c, c = SPACE) sp → sp ≠ [] →
  isReSpace d = false → NL ∉ args →
  let code := ws ++ letter :: sp ++ d :: args in
  expandAliases code
  = if (d =? EQUALS)%N || (d =? COLON)%N || (d =? LPAREN)%N
    then code
    else [UNDERSCORE; UNDERSCORE; letter; LPAREN] ++ d :: args ++ [RPAREN].
Proof.
  intros Hletter Hws Hsp Hne Hd Hnl code.
  assert (Hws' : Forall (λ c, isReSpace c = true) ws).
  { eapply Forall_impl; [exact Hws|]. by intros c [-> | ->]. }
  assert (Hsp' : Forall (λ c, (SPACE =? c)%N = true) sp).
  { eapply Forall_impl; [exact Hsp|]. by intros c ->. }
  assert (Hdsp : (SPACE =? d)%N = false).
  { destruct (N.eqb_spec SPACE d) as [<-|]; [done|done]. }
  assert (Hdnl : d ≠ NL) by (intros E; by rewrite E in Hd).
  assert (Hcode : NL ∉ code).
  { subst code. rewrite elem_of_app, elem_of_cons, elem_of_app, elem_of_cons.
    intros [Hin|[E|[Hin|[?|?]]]]; try done.
    - rewrite Forall_forall in Hws. by destruct (Hws _ Hin).
    - destruct Hletter as [Hl | Hl]; rewrite Hl in E; by vm_compute in E.
    - rewrite Forall_forall in Hsp. by specialize (Hsp _ Hin). }
  assert (Hargs : takeWhile (λ x, negb (x =? NL)%N) args = args).
  { apply takeWhile_all. apply Forall_forall. intros c Hc.
    destruct (N.eqb_spec c NL) as [->|]; done. }
  assert (Hat : ∀ l, alias_at l code
    = if (letter =? l)%N then
        if isReSpace d || (d =? EQUALS)%N || (d =? COLON)%N || (d =? LPAREN)%N
        then None
        else Some (d :: args,
                   (length ws + 1 + length sp + 1 + length args)%nat)
      else None).
  { intros l. subst code. rewrite alias_at_line; [|done|by destruct Hletter as [-> | ->]].
    destruct (letter =? l)%N; [|done].
    rewrite takeWhile_app_all, dropWhile_app_all by done.
    cbn [takeWhile dropWhile]. rewrite Hdsp, app_nil_r, Hargs.
    destruct sp; [done|]. done. }
  assert (Hlen : length code = (length ws + 1 + length sp + 1 + length args)%nat).
  { subst code. rewrite length_app. cbn [length]. rewrite length_app.
    cbn [length]. lia. }
  rewrite Hd in Hat. cbn [orb] in Hat.
  unfold expandAliases.
  destruct ((d =? EQUALS)%N || (d =? COLON)%N || (d =? LPAREN)%N) eqn:Hbad.
  - rewrite (alias_replace_no_match 112 code);
      [|done|rewrite Hat; by destruct (letter =? _)%N].
    rewrite (alias_replace_no_match 116 code);
      [done|done|rewrite Hat; by destruct (letter =? _)%N].
  - assert (Hexp : ∀ l, letter = l →
              alias_replace l 0 None code
              = [UNDERSCORE; UNDERSCORE; l; LPAREN] ++ (d :: args) ++ [RPAREN]).
    { intros l <-. specialize (Hat letter). rewrite N.eqb_refl in Hat.
      clearbody code. destruct code as [|c code']; [cbn in Hlen; lia|].
      cbn [alias_replace atLineStart]. rewrite Hat.
      rewrite alias_replace_skip_all; [by rewrite app_nil_r|].
      cbn [length] in Hlen. lia. }
    assert (Hcall : ∀ l l', l = 112%N ∨ l = 116%N → l' = 112%N ∨ l' = 116%N →
              (NL ∉ [UNDERSCORE; UNDERSCORE; l; LPAREN] ++ (d :: args) ++ [RPAREN])
              ∧ alias_at l' ([UNDERSCORE; UNDERSCORE; l; LPAREN]
                             ++ (d :: args) ++ [RPAREN]) = None).
    { intros l l' Hl Hl'. split.
      - cbn [app]. rewrite !elem_of_cons, elem_of_app, list_elem_of_singleton.
        intros [E|[E|[E|[E|[E|[E|E]]]]]]; try done; try congruence.
        destruct Hl as [Hl | Hl]; rewrite Hl in E; by vm_compute in E.
      - unfold alias_at. cbn [app takeWhile dropWhile].
        change (isReSpace UNDERSCORE) with false. cbn iota.
        by destruct Hl' as [-> | ->]. }
    destruct Hletter as [-> | ->].
    + rewrite (Hexp 112%N eq_refl).
      destruct (Hcall 112%N 116%N) as [H1 H2]; [by left|by right|].
      by rewrite alias_replace_no_match.
    + rewrite (alias_replace_no_match 112); [|done|by rewrite Hat].
      by rewrite (Hexp 116%N eq_refl).
Qed.

Lemma expandAliases_line_witness :
  expandAliases (str "  p a, b") = str "__p(a, b)"
  ∧ expandAliases (str "p := 10") = str "p := 10".
Proof.
  split.
  - apply (expandAliases_line 112 (str "  ") (str " ") (str ", b") 97);
      [by left | repeat constructor; by left | repeat constructor; done
      | done | reflexivity | ].
    vm_compute. intros H.
    by repeat (inversion H as [|? ? ? H']; clear H; rename H' into H).
  - apply (expandAliases_line 112 [] (str " ") (str "= 10") COLON);
      [by left | constructor | repeat constructor; done
      | done | reflexivity | ].
    vm_compute. intros H.
    by repeat (inversion H as [|? ? ? H']; clear H; rename H' into H).
Defined.

(** ** The diagnostics of [run] *)

Lemma errPat_replace_nil e : errPat_replace e = [] ↔ e = [].
Proof.
  split; [|by intros ->]. unfold errPat_replace.
  destruct e as [|c0 e1]; [done|].
  destruct (c0 =? COLON)%N; [|done].
  destruct (takeWhile isDigit e1) as [|d0 ds]; [done|].
  destruct (dropWhile isDigit e1) as [|b e2]; [done|].
  destruct (b =? 91)%N; [|done].
  by destruct (afterLastBracket e2).
Qed.

Lemma run_err_fold (ls : list (list N)) : ∀ acc,
  foldl (λ err e, if HasPrefix e banner then err else err ++ errPat_replace e)
        acc ls
  = acc ++ concat (map (λ e, if HasPrefix e banner then []
                             else errPat_replace e) ls).
Proof.
  induction ls as [|e ls IH]; intros acc; cbn [foldl map concat].
  { by rewrite app_nil_r. }
  rewrite IH. destruct (HasPrefix e banner); [done|]. by rewrite <- app_assoc.
Qed.

(** X18. When the command has failed, [run] returns an empty output, and
    its error text is empty exactly when every line that the command
    printed is empty or starts with the banner of the toolchain: a command
    that fails without a word comes back with two empty strings, as a
    command that succeeds without a word does. *)
Theorem run_error_empty (out : list N) :
  (runOutput out true).1 = []
  ∧ ((runOutput out true).2 = []
     ↔ Forall (λ e, e = [] ∨ HasPrefix e banner = true) (splitLines out))
  ∧ runOutput [] true = runOutput [] false.
Proof.
  split_and!; [done| |done].
  unfold runOutput. cbn [snd]. rewrite run_err_fold. cbn [app].
  induction (splitLines out) as [|e ls IH]; cbn [map concat].
  { split; [by constructor|done]. }
  split.
  - intros [He Hls]%app_eq_nil. constructor; [|by apply IH].
    destruct (HasPrefix e banner); [by right|]. left.
    by apply errPat_replace_nil.
  - intros H. inversion H as [|? ? He Hls]; subst.
    apply IH in Hls. rewrite Hls, app_nil_r.
    destruct He as [-> | ->]; [|done]. by destruct (HasPrefix [] banner).
Qed.

Lemma splitLines_concat s : concat (splitLines s) = filter (λ c, c ≠ NL) s.
Proof.
  induction s as [|c s IH]; [done|]. cbn [splitLines].
  destruct (N.eqb_spec c NL) as [->|Hne].
  - rewrite filter_cons_False by (intros H; by apply H). by cbn.
  - rewrite filter_cons_True by done. rewrite <- IH.
    by destruct (splitLines s) as [|l ls].
Qed.

(** X19. A line of the output that does not start with a colon is taken
    over as it is, and the newlines that [strings.Split] has cut away are
    not put back: when no line of the output of a failed command starts
    with a colon or with the banner, the error text that [run] returns is
    that output without its newlines. *)
Theorem run_error_unmatched_lines (out : list N) :
  Forall (λ e, head e ≠ Some COLON ∧ HasPrefix e banner = false)
         (splitLines out) →
  (runOutput out true).2 = filter (λ c, c ≠ NL) out.
Proof.
  intros H. unfold runOutput. cbn [snd]. rewrite run_err_fold. cbn [app].
  rewrite <- splitLines_concat. f_equal.
  induction H as [|e ls [He Hb] _ IH]; [done|]. cbn [map]. rewrite Hb, IH.
  f_equal. unfold errPat_replace. destruct e as [|c0 e1]; [done|].
  destruct (N.eqb_spec c0 COLON) as [->|_]; [by cbn in He|done].
Qed.

Lemma run_error_unmatched_lines_witness :
  let out := str "./gore_eval.go:7:2: undefined: x" ++ nl
             ++ str "./gore_eval.go:8:2: undefined: y" ++ nl in
  (runOutput out true).2
  = str "./gore_eval.go:7:2: undefined: x./gore_eval.go:8:2: undefined: y".
Proof.
  intros out.
  rewrite (run_error_unmatched_lines out); [by vm_compute|].
  vm_compute. repeat constructor; done.
Defined.

(** A diagnostic in the form that [errPat] is written for loses its
    bracketed part and gets its newline back. *)
Example run_error_matched_line :
  (runOutput (str ":12[gore_eval.go:30]: undefined: x" ++ nl) true).2
  = str ":12: undefined: x" ++ nl.
Proof. vm_compute. reflexivity. Qed.

(** ** [Eval] as a whole *)

(** X20. [Eval] always returns.  An input with a leading package clause
    is handed to [run] as it is, once, and what [run] says is the result.
    Any other input is compiled at most twice; when [partition] panics on
    it, nothing is compiled, the world is left alone, the output is empty
    and the error text is the panic value after 1 and a colon. *)
Theorem Eval_outcomes (World : Type)
    (run : list N → World → list N * list N * World) (code : list N) (w : World) :
  ∃ r, Eval World run code w = Returns r
    ∧ (length (compiled r) ≤ 2)%nat
    ∧ (hasPackageDecl code = true →
       compiled r = [code] ∧ (out r, err r, world r) = run code w)
    ∧ (hasPackageDecl code = false →
       ∀ p, partition (expandAliases code) = Panics p →
         compiled r = [] ∧ world r = w ∧ out r = []
         ∧ err r = str "1:" ++ fmtPanic p).
Proof.
  unfold Eval. destruct (hasPackageDecl code).
  - destruct (run code w) as [[o e] w'] eqn:Hrun. eexists. split; [done|].
    cbn. split_and!; [lia|by intros _|done].
  - pose proof (partition_total (expandAliases code)) as Ht.
    destruct (partition (expandAliases code)) as [[[top body] pk]|p|];
      [| |done].
    + eexists. split; [done|]. split_and!; [|done|done].
      unfold buildAndExec.
      destruct (run _ w) as [[o1 e1] w1]. destruct e1 as [|c e1]; [cbn; lia|].
      destruct (repairImports _ _) as [[] pk']; [|cbn; lia].
      destruct (run _ w1) as [[o2 e2] w2]. cbn. lia.
    + eexists. split; [done|]. cbn. split_and!; [lia|done|].
      intros _ p' [= <-]. done.
Qed.

(** ** Quoted literals that are not closed *)

Lemma ReadRune_eof (s : Scanner) :
  (length (input s) ≤ pos s)%nat → ReadRune s = (NUL, Some EOF, s).
Proof.
  intros H. unfold ReadRune. by rewrite (lookup_ge_None_2 _ _ H).
Qed.

Lemma mkChunk_embedded_eof (s : Scanner) (start : nat) (X : list N) k n :
  at_offset (input s) start X → pos s = (start + length X)%nat →
  (start ≤ length (input s))%nat → X ≠ [] →
  mkChunk (length (input s) - start) s k n (Some EOF)
  = ({| kind := k; text := X; numNL := n |}, None, s).
Proof.
  intros HX Hp Hs Hne. unfold mkChunk, Slice.
  replace (length (input s) - (length (input s) - start))%nat with start by lia.
  rewrite Hp, Nat.add_comm, Nat.add_sub, (at_offset_slice _ _ _ HX).
  destruct X; [done|]. done.
Qed.

(** X21. A newline that stands in a quoted literal, not escaped, before
    the closing quote makes [nextChunk] panic, and the panic value carries
    the offset of the read head, which is just past that newline.  Escaped
    runes before it, an escaped newline among them, do not. *)
Theorem quoted_literal_newline (pre rest : list N) (items : list litItem) (q : N) :
  q = DQUOTE ∨ q = SQUOTE →
  Forall (plainFor q) items →
  let code := pre ++ (q :: litText items ++ [NL]) ++ rest in
  nextChunk {| input := code; pos := length pre |}
  = Panics (NewlineInString
              (Z.of_nat (length pre + length (litText items) + 2))).
Proof.
  intros Hq Hpl code.
  pose proof (at_offset_embedded pre (q :: litText items ++ [NL]) rest) as Hat.
  fold code in Hat.
  assert (Hlen : (length pre + (length (litText items) + 2) ≤ length code)%nat).
  { subst code. rewrite !length_app. cbn [length]. rewrite length_app.
    cbn [length]. lia. }
  assert (Hitems : (length items ≤ length (litText items))%nat).
  { clear. induction items as [|it items IH]; [done|].
    change (litText (it :: items))
      with (match it with Plain c => [c] | Escaped c => [BACKSLASH; c] end
            ++ litText items).
    rewrite length_app. destruct it; cbn [length]; lia. }
  assert (Hqb : q ≠ BACKSLASH) by (by destruct Hq as [-> | ->]).
  clearbody code.
  apply at_offset_cons in Hat as [H0 Hat1].
  apply at_offset_app in Hat1 as [Hbody Hnl].
  apply at_offset_cons in Hnl as [Hnl _].
  unfold nextChunk, Mark, Len. cbn [input pos].
  rewrite (ReadRune_lookup _ q) by done. cbn [notNil input pos].
  assert (Hcase : (q =? SLASH)%N = false
                  ∧ (q =? DQUOTE)%N || (q =? SQUOTE)%N = true).
  { by destruct Hq as [-> | ->]. }
  destruct Hcase as [-> ->].
  unfold readString, Len. cbn [input pos].
  rewrite (readString_loop_skip code _ q items) by (done || lia).
  destruct (S (length code - S (length pre)) - length items)%nat
    as [|fuel] eqn:Hfuel; [lia|].
  cbn [readString_loop].
  rewrite (ReadRune_lookup _ NL) by done. cbn [notNil input pos].
  assert (Hnq : (NL =? q)%N = false) by (by destruct Hq as [-> | ->]).
  rewrite Hnq. change (NL =? BACKSLASH)%N with false.
  change (NL =? NL)%N with true. cbn iota.
  unfold Pos. cbn [pos]. do 3 f_equal. lia.
Qed.

Lemma quoted_literal_newline_witness :
  let code := str "x := " ++ dq ++ str "a" ++ bsl ++ nl ++ str "b" ++ nl
              ++ str "c" ++ dq in
  nextChunk {| input := code; pos := 5 |} = Panics (NewlineInString 11).
Proof.
  apply (quoted_literal_newline (str "x := ") (str "c" ++ dq)
           [Plain 97%N; Escaped NL; Plain 98%N] DQUOTE).
  - by left.
  - repeat constructor; done.
Defined.

(** X22. A quoted literal that the end of the input cuts short is no
    error: [nextChunk] hands back what there is of it as a STRING chunk
    with a line-break count of 0, and keeps the end of input for the next
    call. *)
Theorem quoted_literal_unterminated (pre : list N) (items : list litItem) (q : N) :
  q = DQUOTE ∨ q = SQUOTE →
  Forall (plainFor q) items →
  let code := pre ++ q :: litText items in
  let s' := {| input := code; pos := length code |} in
  nextChunk {| input := code; pos := length pre |}
  = Returns ({| kind := KSTRING; text := q :: litText items; numNL := 0 |},
             None, s')
  ∧ nextChunk s' = Returns (zeroChunk, Some EOF, s').
Proof.
  intros Hq Hpl code s'.
  pose proof (at_offset_embedded pre (q :: litText items) []) as Hat.
  rewrite app_nil_r in Hat. fold code in Hat.
  assert (Hlen : length code = (length pre + S (length (litText items)))%nat).
  { subst code. rewrite length_app. by cbn [length]. }
  assert (Hitems : (length items ≤ length (litText items))%nat).
  { clear. induction items as [|it items IH]; [done|].
    change (litText (it :: items))
      with (match it with Plain c => [c] | Escaped c => [BACKSLASH; c] end
            ++ litText items).
    rewrite length_app. destruct it; cbn [length]; lia. }
  assert (Hqb : q ≠ BACKSLASH) by (by destruct Hq as [-> | ->]).
  subst s'. clearbody code. split.
  2:{ unfold nextChunk. rewrite ReadRune_eof by (cbn [input pos]; lia). done. }
  pose proof Hat as Hat0.
  apply at_offset_cons in Hat0 as [H0 Hbody].
  unfold nextChunk, Mark, Len. cbn [input pos].
  rewrite (ReadRune_lookup _ q) by done. cbn [notNil input pos].
  assert (Hcase : (q =? SLASH)%N = false
                  ∧ (q =? DQUOTE)%N || (q =? SQUOTE)%N = true).
  { by destruct Hq as [-> | ->]. }
  destruct Hcase as [-> ->].
  unfold readString, Len. cbn [input pos].
  rewrite (readString_loop_skip code _ q items) by (done || lia).
  destruct (S (length code - S (length pre)) - length items)%nat
    as [|fuel] eqn:Hfuel; [lia|].
  cbn [readString_loop].
  rewrite ReadRune_eof by (cbn [input pos]; lia). cbn [notNil].
  apply f_equal.
  replace (S (length pre) + length (litText items))%nat with (length code) by lia.
  apply (mkChunk_embedded_eof {| input := code; pos := length code |}
           (length pre) (q :: litText items)); cbn [input pos length];
    [done | lia | lia | done].
Qed.

Lemma quoted_literal_unterminated_witness :
  let code := str "f('a" in
  let s' := {| input := code; pos := 4 |} in
  nextChunk {| input := code; pos := 2 |}
  = Returns ({| kind := KSTRING; text := str "'a"; numNL := 0 |}, None, s')
  ∧ nextChunk s' = Returns (zeroChunk, Some EOF, s').
Proof.
  apply (quoted_literal_unterminated (str "f(") [Plain 97%N] SQUOTE).
  - by right.
  - repeat constructor; done.
Defined.
